(** * shopify-token: the HMAC verifier and the access-token exchange

    A shallow embedding of [index.js] of the [shopify-token] package
    (the revision with [timingSafeEqual], [accessMode] and [agent]) and
    the proofs of the properties its specification states: the
    constructor, [generateAuthUrl], [verifyHmac] with its canonical
    signing string and its comparison of digests, and [getAccessToken] as
    a machine driven by the events of the request and of the timer.

    Conventions of the embedding.
    - A JavaScript string is the list of its UTF-16 code units, each a
      [Z] in [0, 65535].  [Array.prototype.sort], [String.prototype.endsWith]
      and [String.prototype.replace] work on code units; [Buffer.byteLength]
      and [Hmac.update] work on the UTF-8 encoding.
    - A [Buffer] is the list of its bytes, each a [Z] in [0, 255].
    - A query object is the list of its own enumerable properties in
      [Object.keys] order.
    - The platform functions the source calls ([crypto.createHmac],
      [Buffer.from(_, 'hex')], [encodeURIComponent], [Array.prototype.sort],
      [Array.prototype.join], [String]) are written out after their
      published definitions; [JSON.parse] is a parameter. *)

From Stdlib Require Import ZArith List Bool Lia Ascii DecimalString.
From Stdlib Require String.
Import String.StringSyntax.
From Stdlib Require Import Sorting.Sorted Sorting.Permutation.
Import ListNotations.
Local Open Scope string_scope.
Local Open Scope Z_scope.
Set Warnings "-register-all".

(* ------------------------------------------------------------------ *)
(** ** SHA-256 (FIPS 180-4) and HMAC (RFC 2104), as [crypto.createHmac]
       computes them *)

Module Crypto.

Definition buffer := list Z.

Definition add32 (a b : Z) : Z := (a + b) mod 4294967296.

Definition rotr (n x : Z) : Z :=
  Z.lor (Z.shiftr x n) (Z.land (Z.shiftl x (32 - n)) 4294967295).

Definition not32 (x : Z) : Z := Z.lxor x 4294967295.

Definition Ch (x y z : Z) : Z := Z.lxor (Z.land x y) (Z.land (not32 x) z).

Definition Maj (x y z : Z) : Z :=
  Z.lxor (Z.lxor (Z.land x y) (Z.land x z)) (Z.land y z).

Definition Sigma0 (x : Z) : Z := Z.lxor (Z.lxor (rotr 2 x) (rotr 13 x)) (rotr 22 x).
Definition Sigma1 (x : Z) : Z := Z.lxor (Z.lxor (rotr 6 x) (rotr 11 x)) (rotr 25 x).
Definition sigma0 (x : Z) : Z := Z.lxor (Z.lxor (rotr 7 x) (rotr 18 x)) (Z.shiftr x 3).
Definition sigma1 (x : Z) : Z := Z.lxor (Z.lxor (rotr 17 x) (rotr 19 x)) (Z.shiftr x 10).

(** The constants of the standard are fractional parts of roots of the
    first primes, on 32 bits. *)
Definition is_prime (n : Z) : bool :=
  forallb (fun d => negb (n mod d =? 0))
          (filter (fun d => d * d <=? n) (map Z.of_nat (seq 2 (Z.to_nat n - 2)))).

Definition primes (below : nat) : list Z :=
  filter is_prime (map Z.of_nat (seq 2 (below - 2))).

(** The integer cube root, one bit at a time. *)
Fixpoint icbrt (bits : nat) (n r : Z) : Z :=
  match bits with
  | O => r
  | S b =>
      let c := r + 2 ^ Z.of_nat b in
      icbrt b n (if c * c * c <=? n then c else r)
  end.

Definition frac_cbrt32 (p : Z) : Z := icbrt 40 (p * 2 ^ 96) 0 mod 2 ^ 32.
Definition frac_sqrt32 (p : Z) : Z := Z.sqrt (p * 2 ^ 64) mod 2 ^ 32.

(** The 64 round constants: from the cube roots of the first 64 primes. *)
Definition K256 : list Z :=
  Eval vm_compute in map frac_cbrt32 (primes 312).

(** The eight working variables / the intermediate hash value. *)
Record hstate : Type := HState {
  ha : Z; hb : Z; hc : Z; hd : Z; he : Z; hf : Z; hg : Z; hh : Z
}.

(** The initial hash value: from the square roots of the first 8 primes. *)
Definition H0 : hstate :=
  Eval vm_compute in
    match map frac_sqrt32 (primes 20) with
    | [a; b; c; d; e; f; g; h] => HState a b c d e f g h
    | _ => HState 0 0 0 0 0 0 0 0
    end.

Definition word_of_bytes (b3 b2 b1 b0 : Z) : Z :=
  Z.lor (Z.lor (Z.lor (Z.shiftl b3 24) (Z.shiftl b2 16)) (Z.shiftl b1 8)) b0.

Definition bytes_of_word (w : Z) : buffer :=
  [ Z.land (Z.shiftr w 24) 255; Z.land (Z.shiftr w 16) 255;
    Z.land (Z.shiftr w 8) 255; Z.land w 255 ].

Fixpoint words_of_bytes (l : buffer) : list Z :=
  match l with
  | b3 :: b2 :: b1 :: b0 :: t => word_of_bytes b3 b2 b1 b0 :: words_of_bytes t
  | _ => []
  end.

(** Message schedule; [rw] holds the words computed so far, newest first. *)
Fixpoint schedule (n : nat) (rw : list Z) : list Z :=
  match n with
  | O => rev rw
  | S n' =>
      let w := add32 (add32 (sigma1 (nth 1 rw 0)) (nth 6 rw 0))
                     (add32 (sigma0 (nth 14 rw 0)) (nth 15 rw 0)) in
      schedule n' (w :: rw)
  end.

Definition round (s : hstate) (kw : Z * Z) : hstate :=
  let '(k, w) := kw in
  let t1 := add32 (add32 (add32 (hh s) (Sigma1 (he s))) (Ch (he s) (hf s) (hg s)))
                  (add32 k w) in
  let t2 := add32 (Sigma0 (ha s)) (Maj (ha s) (hb s) (hc s)) in
  HState (add32 t1 t2) (ha s) (hb s) (hc s) (add32 (hd s) t1) (he s) (hf s) (hg s).

Definition compress (s : hstate) (block : buffer) : hstate :=
  let w := schedule 48 (rev (words_of_bytes block)) in
  let r := fold_left round (combine K256 w) s in
  HState (add32 (ha s) (ha r)) (add32 (hb s) (hb r)) (add32 (hc s) (hc r))
         (add32 (hd s) (hd r)) (add32 (he s) (he r)) (add32 (hf s) (hf r))
         (add32 (hg s) (hg r)) (add32 (hh s) (hh r)).

(** Padding: a [0x80] byte, zeros up to 56 mod 64, the bit length on 8 bytes. *)
Definition pad (msg : buffer) : buffer :=
  let len := Z.of_nat (length msg) in
  let zeros := Z.to_nat ((55 - len) mod 64) in
  let bits := 8 * len in
  msg ++ [128] ++ repeat 0 zeros
      ++ bytes_of_word (Z.shiftr bits 32 mod 4294967296)
      ++ bytes_of_word (bits mod 4294967296).

Fixpoint absorb (n : nat) (s : hstate) (l : buffer) : hstate :=
  match n with
  | O => s
  | S n' => absorb n' (compress s (firstn 64 l)) (skipn 64 l)
  end.

Definition sha256 (msg : buffer) : buffer :=
  let p := pad msg in
  let s := absorb (Nat.div (length p) 64) H0 p in
  bytes_of_word (ha s) ++ bytes_of_word (hb s) ++ bytes_of_word (hc s)
    ++ bytes_of_word (hd s) ++ bytes_of_word (he s) ++ bytes_of_word (hf s)
    ++ bytes_of_word (hg s) ++ bytes_of_word (hh s).

Definition hmac_key (key : buffer) : buffer :=
  let k := if (64 <? Z.of_nat (length key)) then sha256 key else key in
  k ++ repeat 0 (64 - length k)%nat.

(** [crypto.createHmac('sha256', key).update(msg).digest()] *)
Definition hmac_sha256 (key msg : buffer) : buffer :=
  let k := hmac_key key in
  sha256 (map (Z.lxor 92) k ++ sha256 (map (Z.lxor 54) k ++ msg)).

End Crypto.

(* ------------------------------------------------------------------ *)
(** ** JavaScript strings, values and the platform functions used *)

Module JS.

(** A string: its UTF-16 code units. *)
Definition jsstring := list Z.

(** An ASCII literal as a JavaScript string. *)
Definition str (s : String.string) : jsstring :=
  map (fun a => Z.of_N (N_of_ascii a)) (String.list_ascii_of_string s).

(** The double-quote character, [U+0022]. *)
Definition dquote : Z := 34.

Fixpoint streq (a b : jsstring) : bool :=
  match a, b with
  | [], [] => true
  | x :: a', y :: b' => (x =? y) && streq a' b'
  | _, _ => false
  end.

(** The values a parsed query string or an options object holds.  A number
    is integer-valued (and below 10^21 in magnitude, where [String] prints
    every digit). *)
Inductive value : Type :=
| VUndefined
| VNull
| VBool (b : bool)
| VNum (n : Z)
| VStr (s : jsstring)
| VArr (l : list value).

(** What is thrown, and what a rejected promise carries: an [Error] with
    its message and the two properties [getAccessToken] may add. *)
Record jserror : Type := JsError {
  message : jsstring;
  statusCode : option Z;
  responseBody : option jsstring
}.

Definition mkError (msg : jsstring) : jserror := JsError msg None None.

(** A call either returns or throws. *)
Inductive completion (A : Type) : Type :=
| Return (a : A)
| Throw (e : jserror).
Arguments Return {A} a.
Arguments Throw {A} e.

Definition bind {A B : Type} (c : completion A) (k : A -> completion B)
  : completion B :=
  match c with
  | Return a => k a
  | Throw e => Throw e
  end.

Notation "x <- c ;; k" := (bind c (fun x => k))
  (at level 61, c at next level, right associativity).

Fixpoint mapM {A B : Type} (f : A -> completion B) (l : list A)
  : completion (list B) :=
  match l with
  | [] => Return []
  | x :: t => y <- f x ;; ys <- mapM f t ;; Return (y :: ys)
  end.

(** [ToBoolean] *)
Definition truthy (v : value) : bool :=
  match v with
  | VUndefined | VNull => false
  | VBool b => b
  | VNum n => negb (n =? 0)
  | VStr s => match s with [] => false | _ => true end
  | VArr _ => true
  end.

Section Join.
Context {A : Type} (f : A -> jsstring) (sep : jsstring).

(** The elements, converted by [f], with [sep] between two of them. *)
Fixpoint join_by (l : list A) : jsstring :=
  match l with
  | [] => []
  | x :: t =>
      match t with
      | [] => f x
      | _ :: _ => f x ++ sep ++ join_by t
      end
  end.
End Join.

Definition number_toString (n : Z) : jsstring :=
  str (NilZero.string_of_int (Z.to_int n)).

(** [String(v)]; an array prints as [join(',')], where [undefined] and
    [null] elements print as the empty string. *)
Fixpoint toString (v : value) : jsstring :=
  match v with
  | VUndefined => str "undefined"
  | VNull => str "null"
  | VBool true => str "true"
  | VBool false => str "false"
  | VNum n => number_toString n
  | VStr s => s
  | VArr l =>
      join_by (fun x => match x with
                        | VUndefined | VNull => []
                        | _ => toString x
                        end) (str ",") l
  end.

(** [Array.prototype.join(sep)] *)
Definition array_join (sep : jsstring) (l : list value) : jsstring :=
  join_by (fun x => match x with
                    | VUndefined | VNull => []
                    | _ => toString x
                    end) sep l.

(** An object: its own enumerable properties, in [Object.keys] order. *)
Definition object := list (jsstring * value).

Definition Object_keys (o : object) : list jsstring := map fst o.

(** [o[key]] *)
Fixpoint get (o : object) (key : jsstring) : value :=
  match o with
  | [] => VUndefined
  | (k, v) :: t => if streq k key then v else get t key
  end.

(** *** UTF-8 *)

Definition is_high_surrogate (c : Z) : bool := (0xD800 <=? c) && (c <=? 0xDBFF).
Definition is_low_surrogate (c : Z) : bool := (0xDC00 <=? c) && (c <=? 0xDFFF).

Definition utf8_of_codepoint (c : Z) : list Z :=
  if c <? 0x80 then [c]
  else if c <? 0x800 then
    [Z.lor 0xC0 (Z.shiftr c 6); Z.lor 0x80 (Z.land c 0x3F)]
  else if c <? 0x10000 then
    [Z.lor 0xE0 (Z.shiftr c 12); Z.lor 0x80 (Z.land (Z.shiftr c 6) 0x3F);
     Z.lor 0x80 (Z.land c 0x3F)]
  else
    [Z.lor 0xF0 (Z.shiftr c 18); Z.lor 0x80 (Z.land (Z.shiftr c 12) 0x3F);
     Z.lor 0x80 (Z.land (Z.shiftr c 6) 0x3F); Z.lor 0x80 (Z.land c 0x3F)].

Definition codepoint_of_pair (hi lo : Z) : Z :=
  0x10000 + Z.shiftl (hi - 0xD800) 10 + (lo - 0xDC00).

(** The UTF-8 bytes of a string, as [Buffer.from(s)] and [Hmac.update(s)]
    produce them: a surrogate pair is one code point, a lone surrogate is
    replaced by [U+FFFD]. *)
Fixpoint utf8 (s : jsstring) : list Z :=
  match s with
  | [] => []
  | c :: t =>
      if is_high_surrogate c then
        match t with
        | d :: t' =>
            if is_low_surrogate d
            then utf8_of_codepoint (codepoint_of_pair c d) ++ utf8 t'
            else utf8_of_codepoint 0xFFFD ++ utf8 t
        | [] => utf8_of_codepoint 0xFFFD
        end
      else if is_low_surrogate c then utf8_of_codepoint 0xFFFD ++ utf8 t
      else utf8_of_codepoint c ++ utf8 t
  end.

(** [Buffer.byteLength(s)] *)
Definition Buffer_byteLength (s : jsstring) : Z := Z.of_nat (length (utf8 s)).

(** *** Hexadecimal *)

Definition unhex (c : Z) : option Z :=
  if (48 <=? c) && (c <=? 57) then Some (c - 48)
  else if (97 <=? c) && (c <=? 102) then Some (c - 87)
  else if (65 <=? c) && (c <=? 70) then Some (c - 55)
  else None.

Definition is_hex_digit (c : Z) : bool :=
  match unhex c with Some _ => true | None => false end.

(** [Buffer.from(s, 'hex')]: two digits make a byte; decoding stops, and
    the bytes decoded so far are the result, at the first pair that is not
    two hexadecimal digits or at a single trailing character. *)
Fixpoint Buffer_from_hex (s : jsstring) : list Z :=
  match s with
  | a :: b :: t =>
      match unhex a, unhex b with
      | Some x, Some y => (16 * x + y) :: Buffer_from_hex t
      | _, _ => []
      end
  | _ => []
  end.

Definition hex_digit (upper : bool) (n : Z) : Z :=
  if n <? 10 then 48 + n else (if upper then 55 else 87) + n.

(** [buf.toString('hex')] *)
Definition Buffer_toString_hex (b : list Z) : jsstring :=
  flat_map (fun x => [hex_digit false (Z.shiftr x 4); hex_digit false (Z.land x 15)]) b.

(** *** [encodeURIComponent] *)

(** [A-Z a-z 0-9 - _ . ! ~ * ' ( )] are left as they are. *)
Definition uri_unreserved (c : Z) : bool :=
  ((65 <=? c) && (c <=? 90)) || ((97 <=? c) && (c <=? 122))
  || ((48 <=? c) && (c <=? 57))
  || (c =? 45) || (c =? 95) || (c =? 46) || (c =? 33) || (c =? 126)
  || (c =? 42) || (c =? 39) || (c =? 40) || (c =? 41).

Definition percent_byte (b : Z) : jsstring :=
  [37; hex_digit true (Z.shiftr b 4); hex_digit true (Z.land b 15)].

Definition percent_codepoint (c : Z) : jsstring :=
  flat_map percent_byte (utf8_of_codepoint c).

Definition URIError : jserror := mkError (str "URI malformed").

Fixpoint encodeURIComponent (s : jsstring) : completion jsstring :=
  match s with
  | [] => Return []
  | c :: t =>
      if uri_unreserved c then
        r <- encodeURIComponent t ;; Return (c :: r)
      else if is_low_surrogate c then Throw URIError
      else if is_high_surrogate c then
        match t with
        | d :: t' =>
            if is_low_surrogate d then
              r <- encodeURIComponent t' ;;
              Return (percent_codepoint (codepoint_of_pair c d) ++ r)
            else Throw URIError
        | [] => Throw URIError
        end
      else
        r <- encodeURIComponent t ;; Return (percent_codepoint c ++ r)
  end.

(** [input.replace(/[...]/g, fn)] for a character class [cls]: every code
    unit of the class is a match, replaced by what [fn] returns for it. *)
Fixpoint replace_class (cls : Z -> bool) (fn : jsstring -> completion jsstring)
  (input : jsstring) : completion jsstring :=
  match input with
  | [] => Return []
  | c :: t =>
      if cls c then
        r <- fn [c] ;; rest <- replace_class cls fn t ;; Return (r ++ rest)
      else
        rest <- replace_class cls fn t ;; Return (c :: rest)
  end.

(** *** [Array.prototype.sort()] on strings *)

(** [a < b] on strings: the first differing code unit decides, a proper
    prefix comes first. *)
Fixpoint str_ltb (a b : jsstring) : bool :=
  match a, b with
  | _, [] => false
  | [], _ :: _ => true
  | x :: a', y :: b' =>
      if x <? y then true else if y <? x then false else str_ltb a' b'
  end.

(** [a] may stand before [b]: [b < a] does not hold. *)
Definition str_le (a b : jsstring) : Prop := str_ltb b a = false.

Section Sort.
(** [lt a b]: [a] is to come before [b]. *)
Variable lt : jsstring -> jsstring -> bool.

Fixpoint insert_sorted (x : jsstring) (l : list jsstring) : list jsstring :=
  match l with
  | [] => [x]
  | y :: t => if lt x y then x :: y :: t else y :: insert_sorted x t
  end.

Fixpoint sort_with (l : list jsstring) : list jsstring :=
  match l with
  | [] => []
  | x :: t => insert_sorted x (sort_with t)
  end.
End Sort.

(** The default sort: ascending in the order of [str_ltb]. *)
Definition sort : list jsstring -> list jsstring := sort_with str_ltb.

(** [s.endsWith(suffix)] *)
Definition endsWith (s suffix : jsstring) : bool :=
  (length suffix <=? length s)%nat
  && streq (skipn (length s - length suffix) s) suffix.

End JS.

Import JS.

(* ------------------------------------------------------------------ *)
(** ** [index.js]

    The current revision, with [timingSafeEqual], [accessMode] and
    [agent], function by function. *)

Module ShopifyToken.

Definition buffer := Crypto.buffer.

(** [const encodeValue = (input) => input.replace(/[%&]/g, encodeURIComponent)] *)
Definition encodeValue (input : jsstring) : completion jsstring :=
  replace_class (fun c => (c =? 37) || (c =? 38)) encodeURIComponent input.

(** [const encodeKey = (input) => input.replace(/[%&=]/g, encodeURIComponent)] *)
Definition encodeKey (input : jsstring) : completion jsstring :=
  replace_class (fun c => (c =? 37) || (c =? 38) || (c =? 61))
                encodeURIComponent input.

(** [function timingSafeEqual(a, b)]: [result |= a[i] ^ b[i]] for every
    index [i] of [a].  A [Buffer] element is a byte, so the 32-bit
    operators never wrap; an index past the end of [b] reads [undefined],
    which [^] takes as [0]. *)
Definition timingSafeEqual (a b : buffer) : bool :=
  let result :=
    fold_left (fun result i => Z.lor result (Z.lxor (nth i a 0) (nth i b 0)))
              (seq 0 (length a)) 0 in
  result =? 0.

(** An [https.Agent], by identity. *)
Definition Agent := Z.

(** The options object handed to the constructor; [None] is a property
    that is not there. *)
Record options : Type := Options {
  opt_redirectUri : option jsstring;
  opt_sharedSecret : option jsstring;
  opt_apiKey : option jsstring;
  opt_scopes : option value;
  opt_timeout : option Z;
  opt_accessMode : option jsstring;
  opt_agent : option Agent
}.

(** [options.name], for a string-valued property. *)
Definition prop (o : option jsstring) : value :=
  match o with
  | Some s => VStr s
  | None => VUndefined
  end.

(** An instance of the class. *)
Record instance : Type := Instance {
  accessMode : jsstring;
  scopes : value;
  timeout : Z;
  sharedSecret : jsstring;
  redirectUri : jsstring;
  apiKey : jsstring;
  agent : option Agent
}.

(** [constructor(options)]; [None] is the call without an argument. *)
Definition constructor (arg : option options) : completion instance :=
  match arg with
  | None => Throw (mkError (str "Missing or invalid options"))
  | Some o =>
      if negb (truthy (prop (opt_sharedSecret o)))
         || negb (truthy (prop (opt_redirectUri o)))
         || negb (truthy (prop (opt_apiKey o)))
      then Throw (mkError (str "Missing or invalid options"))
      else
        match opt_sharedSecret o, opt_redirectUri o, opt_apiKey o with
        | Some secret, Some uri, Some key =>
            Return {|
              accessMode := match opt_accessMode o with Some m => m | None => [] end;
              scopes := match opt_scopes o with
                        | Some sc => sc
                        | None => VStr (str "read_content")
                        end;
              timeout := match opt_timeout o with Some t => t | None => 60000 end;
              sharedSecret := secret;
              redirectUri := uri;
              apiKey := key;
              agent := opt_agent o
            |}
        | _, _, _ =>
            (* not reached: a missing option is [undefined], which the
               test above has excluded *)
            Throw (mkError (str "Missing or invalid options"))
        end
  end.

(** [generateNonce()], from the 16 bytes [crypto.randomBytes] draws. *)
Definition generateNonce (randomBytes : buffer) : jsstring :=
  Buffer_toString_hex randomBytes.

(** The object [generateAuthUrl] hands to [url.format]. *)
Record urlObject : Type := UrlObject {
  pathname : jsstring;
  hostname : jsstring;
  protocol : jsstring;
  query : object
}.

Definition myshopify_com : jsstring := str ".myshopify.com".

(** [generateAuthUrl(shop, scopes, nonce, accessMode)] up to the call of
    [url.format]; an argument left out is [VUndefined]. *)
Definition authUrlObject (this : instance) (randomBytes : buffer)
  (shop : jsstring) (scopes0 nonce accessMode0 : value) : urlObject :=
  let scopes1 := if truthy scopes0 then scopes0 else scopes this in
  let accessMode1 :=
    if truthy accessMode0 then accessMode0 else VStr (accessMode this) in
  let query0 : object :=
    [ (str "scope", match scopes1 with
                    | VArr l => VStr (array_join (str ",") l)
                    | _ => scopes1
                    end);
      (str "state", if truthy nonce then nonce
                    else VStr (generateNonce randomBytes));
      (str "redirect_uri", VStr (redirectUri this));
      (str "client_id", VStr (apiKey this)) ] in
  let query1 :=
    if truthy accessMode1
    then query0 ++ [(str "grant_options[]", accessMode1)]
    else query0 in
  {| pathname := str "/admin/oauth/authorize";
     hostname := if endsWith shop myshopify_com then shop
                 else shop ++ myshopify_com;
     protocol := str "https:";
     query := query1 |}.

Section Url.
(** [url.format] of the platform. *)
Variable url_format : urlObject -> jsstring.

Definition generateAuthUrl (this : instance) (randomBytes : buffer)
  (shop : jsstring) (scopes0 nonce accessMode0 : value) : jsstring :=
  url_format (authUrlObject this randomBytes shop scopes0 nonce accessMode0).
End Url.

(** The value a property contributes to the signed string: an array as
    [["a", "b"]], anything else as [String] prints it. *)
Definition pair_value (v : value) : jsstring :=
  match v with
  | VArr l =>
      str "[" ++ [dquote]
        ++ array_join ([dquote] ++ str ", " ++ [dquote]) l
        ++ [dquote] ++ str "]"
  | _ => toString v
  end.

(** The sorted [pairs] of [verifyHmac]. *)
Definition pairs (query : object) : completion (list jsstring) :=
  ps <- mapM (fun key =>
                let value := pair_value (get query key) in
                k <- encodeKey key ;;
                v <- encodeValue value ;;
                Return (k ++ str "=" ++ v))
             (filter (fun key => negb (streq key (str "signature"))
                                 && negb (streq key (str "hmac")))
                     (Object_keys query)) ;;
  Return (sort ps).

(** [verifyHmac(query)] *)
Definition verifyHmac (this : instance) (query : object) : completion bool :=
  ps <- pairs query ;;
  match get query (str "hmac") with
  | VStr hmac =>
      if negb (Buffer_byteLength hmac =? 64) then Return false
      else
        let digest :=
          Crypto.hmac_sha256 (utf8 (sharedSecret this))
                             (utf8 (join_by (fun p => p) (str "&") ps)) in
        Return (timingSafeEqual digest (Buffer_from_hex hmac))
  | _ => Return false
  end.

(** *** [getAccessToken(shop, code)]

    The promise executor sends the request, arms the timer and registers
    the listeners; everything after that happens in the listeners, one
    event at a time.  The state below is what the closures share. *)

(** The options of [https.request] and the body [request.end] writes. *)
Record request : Type := Request {
  req_headers : list (jsstring * value);
  req_path : jsstring;
  req_hostname : jsstring;
  req_method : jsstring;
  req_agent : option Agent;
  req_data : jsstring
}.

Section Exchange.
(** [JSON.parse] and [JSON.stringify] of the platform; [JSON_parse]
    gives [None] where [JSON.parse] throws. *)
Variable json : Type.
Variable JSON_parse : jsstring -> option json.
Variable JSON_stringify : object -> jsstring.

(** A settled promise. *)
Inductive settlement : Type :=
| Fulfilled (payload : json)
| Rejected (reason : jserror).

Record exchange : Type := Exchange {
  sent : request;
  (** the variable [timer]: [true] while it holds the handle of
      [setTimeout], [false] once it is [null] *)
  timer : bool;
  (** the platform still has the timeout pending: neither fired nor
      cleared *)
  pending_timeout : bool;
  (** [request.abort()] was called *)
  aborted : bool;
  (** [status] and [body] of the ['response'] listener, once it ran *)
  response : option (Z * jsstring);
  (** the state of the promise; [None] is pending *)
  promise : option settlement
}.

Definition set_timer (b : bool) (x : exchange) : exchange :=
  Exchange (sent x) b (pending_timeout x) (aborted x) (response x) (promise x).
Definition set_pending_timeout (b : bool) (x : exchange) : exchange :=
  Exchange (sent x) (timer x) b (aborted x) (response x) (promise x).
Definition set_aborted (b : bool) (x : exchange) : exchange :=
  Exchange (sent x) (timer x) (pending_timeout x) b (response x) (promise x).
Definition set_response (r : option (Z * jsstring)) (x : exchange) : exchange :=
  Exchange (sent x) (timer x) (pending_timeout x) (aborted x) r (promise x).

(** The resolving functions of a promise: the first call settles it,
    a call on a settled promise does nothing. *)
Definition settle (s : settlement) (x : exchange) : exchange :=
  match promise x with
  | Some _ => x
  | None =>
      Exchange (sent x) (timer x) (pending_timeout x) (aborted x)
               (response x) (Some s)
  end.
Definition resolve (v : json) : exchange -> exchange := settle (Fulfilled v).
Definition reject (e : jserror) : exchange -> exchange := settle (Rejected e).

Definition clearTimeout : exchange -> exchange := set_pending_timeout false.

(** The executor, up to [request.end(data)]. *)
Definition getAccessToken (this : instance) (shop code : jsstring) : exchange :=
  let data :=
    JSON_stringify [ (str "client_secret", VStr (sharedSecret this));
                     (str "client_id", VStr (apiKey this));
                     (str "code", VStr code) ] in
  {| sent :=
       {| req_headers :=
            [ (str "Content-Length", VNum (Buffer_byteLength data));
              (str "Content-Type", VStr (str "application/json"));
              (str "Accept", VStr (str "application/json")) ];
          req_path := str "/admin/oauth/access_token";
          req_hostname := shop;
          req_method := str "POST";
          req_agent := agent this;
          req_data := data |};
     timer := true;
     pending_timeout := true;
     aborted := false;
     response := None;
     promise := None |}.

(** The callback of [setTimeout]. *)
Definition on_timeout (x : exchange) : exchange :=
  reject (mkError (str "Request timed out"))
         (set_timer false (set_aborted true x)).

(** The ['response'] listener: [status] is read, [body] starts empty. *)
Definition on_response (status : Z) (x : exchange) : exchange :=
  set_response (Some (status, [])) x.

(** The ['data'] listener: [body += chunk]. *)
Definition on_data (chunk : jsstring) (x : exchange) : exchange :=
  match response x with
  | Some (status, body) => set_response (Some (status, body ++ chunk)) x
  | None => x
  end.

(** The ['end'] listener. *)
Definition on_end (status : Z) (body : jsstring) (x : exchange) : exchange :=
  if negb (timer x) then x
  else
    let x := clearTimeout x in
    if negb (status =? 200) then
      reject {| message := str "Failed to get Shopify access token";
                statusCode := Some status;
                responseBody := Some body |} x
    else
      match JSON_parse body with
      | None =>
          reject {| message := str "Failed to parse the response body";
                    statusCode := Some status;
                    responseBody := Some body |} x
      | Some parsed => resolve parsed x
      end.

(** The ['error'] listener of the request. *)
Definition on_error (err : jserror) (x : exchange) : exchange :=
  if negb (timer x) then x
  else reject err (clearTimeout x).

(** What the event loop delivers. *)
Inductive event : Type :=
| EvTimeout
| EvResponse (status : Z)
| EvData (chunk : jsstring)
| EvEnd
| EvError (err : jserror).

(** One turn of the event loop.  The timeout callback runs only while
    the timeout is pending, and then no more; ['data'] and ['end'] reach
    the listeners the ['response'] listener registered. *)
Definition dispatch (x : exchange) (ev : event) : exchange :=
  match ev with
  | EvTimeout =>
      if pending_timeout x then on_timeout (set_pending_timeout false x)
      else x
  | EvResponse status => on_response status x
  | EvData chunk => on_data chunk x
  | EvEnd =>
      match response x with
      | Some (status, body) => on_end status body x
      | None => x
      end
  | EvError err => on_error err x
  end.

Definition run (x : exchange) (evs : list event) : exchange :=
  fold_left dispatch evs x.

(** Once the timeout callback has run, [timer] is [null], the request
    is aborted and the promise is rejected with the timeout error; until
    then the request is not aborted.  The timeout is pending exactly
    as long as the promise is. *)
Definition timer_invariant (x : exchange) : Prop :=
  (promise x = None <-> pending_timeout x = true)
  /\ (pending_timeout x = true -> timer x = true)
  /\ (timer x = false ->
      pending_timeout x = false /\ aborted x = true
      /\ promise x = Some (Rejected (mkError (str "Request timed out"))))
  /\ (timer x = true -> aborted x = false).

End Exchange.

Arguments Fulfilled {json} payload.
Arguments Rejected {json} reason.
Arguments sent {json} e.
Arguments timer {json} e.
Arguments pending_timeout {json} e.
Arguments aborted {json} e.
Arguments response {json} e.
Arguments promise {json} e.
Arguments getAccessToken {json} JSON_stringify this shop code.
Arguments dispatch {json} JSON_parse x ev.
Arguments run {json} JSON_parse x evs.
Arguments timer_invariant {json} x.

End ShopifyToken.

Import ShopifyToken.

(* ------------------------------------------------------------------ *)
(** ** [verifyHmac] before [timingSafeEqual]

    The older revision of [index.js] builds the same pairs and compares
    the digest, printed in hexadecimal, with [query.hmac] by [===]. *)

Module IndexJs.

Definition verifyHmac (this : instance) (query : object) : completion bool :=
  ps <- pairs query ;;
  let digest :=
    Buffer_toString_hex
      (Crypto.hmac_sha256 (utf8 (sharedSecret this))
                          (utf8 (join_by (fun p => p) (str "&") ps))) in
  Return (match get query (str "hmac") with
          | VStr hmac => streq digest hmac
          | _ => false
          end).

(** [generateAuthUrl(shop, scopes, nonce)] of that revision, up to the
    call of [url.format]: [.myshopify.com] is appended to every shop. *)
Definition authUrlObject (this : instance) (randomBytes : buffer)
  (shop : jsstring) (scopes0 nonce : value) : urlObject :=
  let scopes1 := if truthy scopes0 then scopes0 else scopes this in
  {| pathname := str "/admin/oauth/authorize";
     hostname := shop ++ myshopify_com;
     protocol := str "https:";
     query :=
       [ (str "scope", match scopes1 with
                       | VArr l => VStr (array_join (str ",") l)
                       | _ => scopes1
                       end);
         (str "state", if truthy nonce then nonce
                       else VStr (generateNonce randomBytes));
         (str "redirect_uri", VStr (redirectUri this));
         (str "client_id", VStr (apiKey this)) ] |}.

(** [getAccessToken(shop, code)] of that revision: the same listeners,
    but the promise is resolved with [body.access_token]. *)
Section Exchange.
(** [access_token] reads the property of a parsed body; it gives [None]
    where the read throws, that is for the body [null]. *)
Variable json tok : Type.
Variable JSON_parse : jsstring -> option json.
Variable access_token : json -> option tok.
Variable JSON_stringify : object -> jsstring.

Definition getAccessToken (this : instance) (shop code : jsstring) : exchange tok :=
  let data :=
    JSON_stringify [ (str "client_secret", VStr (sharedSecret this));
                     (str "client_id", VStr (apiKey this));
                     (str "code", VStr code) ] in
  {| sent :=
       {| req_headers :=
            [ (str "Content-Length", VNum (Buffer_byteLength data));
              (str "Content-Type", VStr (str "application/json"));
              (str "Accept", VStr (str "application/json")) ];
          req_path := str "/admin/oauth/access_token";
          req_hostname := shop;
          req_method := str "POST";
          req_agent := None;
          req_data := data |};
     timer := true;
     pending_timeout := true;
     aborted := false;
     response := None;
     promise := None |}.

(** The ['end'] listener.  When [body.access_token] throws, the listener
    ends there, after [clearTimeout] and before [resolve]. *)
Definition on_end (status : Z) (body : jsstring) (x : exchange tok) : exchange tok :=
  if negb (timer x) then x
  else
    let x := clearTimeout tok x in
    if negb (status =? 200) then
      reject tok {| message := str "Failed to get Shopify access token";
                    statusCode := Some status;
                    responseBody := Some body |} x
    else
      match JSON_parse body with
      | None =>
          reject tok {| message := str "Failed to parse the response body";
                        statusCode := Some status;
                        responseBody := Some body |} x
      | Some parsed =>
          match access_token parsed with
          | Some token => resolve tok token x
          | None => x
          end
      end.

Definition dispatch (x : exchange tok) (ev : event) : exchange tok :=
  match ev with
  | EvTimeout =>
      if pending_timeout x then on_timeout tok (set_pending_timeout tok false x)
      else x
  | EvResponse status => on_response tok status x
  | EvData chunk => on_data tok chunk x
  | EvEnd =>
      match response x with
      | Some (status, body) => on_end status body x
      | None => x
      end
  | EvError err => on_error tok err x
  end.

Definition run (x : exchange tok) (evs : list event) : exchange tok :=
  fold_left dispatch evs x.
End Exchange.

Arguments getAccessToken {tok} JSON_stringify this shop code.
Arguments dispatch {json tok} JSON_parse access_token x ev.
Arguments run {json tok} JSON_parse access_token x evs.

End IndexJs.

(* ------------------------------------------------------------------ *)
(** ** The first revision, with a callback

    [verifyHmac] signs the string-valued properties only, and
    [getAccessToken] hands its result to a callback [fn]. *)

Module Callback.

(** The sorted [pairs]: a property whose value is no string gives the
    empty pair. *)
Definition pairs (query : object) : completion (list jsstring) :=
  ps <- mapM (fun key =>
                match get query key with
                | VStr value =>
                    k <- encodeKey key ;;
                    v <- encodeValue value ;;
                    Return (k ++ str "=" ++ v)
                | _ => Return []
                end)
             (filter (fun key => negb (streq key (str "signature"))
                                 && negb (streq key (str "hmac")))
                     (Object_keys query)) ;;
  Return (sort ps).

Definition verifyHmac (this : instance) (query : object) : completion bool :=
  ps <- pairs query ;;
  let digest :=
    Buffer_toString_hex
      (Crypto.hmac_sha256 (utf8 (sharedSecret this))
                          (utf8 (join_by (fun p => p) (str "&") ps))) in
  Return (match get query (str "hmac") with
          | VStr hmac => streq digest hmac
          | _ => false
          end).

Section Exchange.
Variable json tok : Type.
Variable JSON_parse : jsstring -> option json.
Variable access_token : json -> option tok.
Variable JSON_stringify : object -> jsstring.

(** What the closures of [getAccessToken] share, and the calls of [fn]
    made so far, oldest first: [fn(err)] as [Rejected err],
    [fn(undefined, token)] as [Fulfilled token]. *)
Record exchange : Type := Exchange {
  sent : request;
  timer : bool;
  pending_timeout : bool;
  aborted : bool;
  response : option (Z * jsstring);
  calls : list (settlement tok)
}.

Definition fn (s : settlement tok) (x : exchange) : exchange :=
  Exchange (sent x) (timer x) (pending_timeout x) (aborted x) (response x)
           (calls x ++ [s]).

Definition clearTimeout (x : exchange) : exchange :=
  Exchange (sent x) (timer x) false (aborted x) (response x) (calls x).

Definition getAccessToken (this : instance) (shop code : jsstring) : exchange :=
  let data :=
    JSON_stringify [ (str "client_secret", VStr (sharedSecret this));
                     (str "client_id", VStr (apiKey this));
                     (str "code", VStr code) ] in
  {| sent :=
       {| req_headers :=
            [ (str "Content-Length", VNum (Buffer_byteLength data));
              (str "Content-Type", VStr (str "application/json"));
              (str "Accept", VStr (str "application/json")) ];
          req_path := str "/admin/oauth/access_token";
          req_hostname := shop;
          req_method := str "POST";
          req_agent := None;
          req_data := data |};
     timer := true;
     pending_timeout := true;
     aborted := false;
     response := None;
     calls := [] |}.

(** [request.abort(); timer = null; fn(new Error('Request timed out'))] *)
Definition on_timeout (x : exchange) : exchange :=
  fn (Rejected (mkError (str "Request timed out")))
     (Exchange (sent x) false (pending_timeout x) true (response x) (calls x)).

Definition on_response (status : Z) (x : exchange) : exchange :=
  Exchange (sent x) (timer x) (pending_timeout x) (aborted x)
           (Some (status, [])) (calls x).

Definition on_data (chunk : jsstring) (x : exchange) : exchange :=
  match response x with
  | Some (status, body) =>
      Exchange (sent x) (timer x) (pending_timeout x) (aborted x)
               (Some (status, body ++ chunk)) (calls x)
  | None => x
  end.

Definition on_end (status : Z) (body : jsstring) (x : exchange) : exchange :=
  if negb (timer x) then x
  else
    let x := clearTimeout x in
    if negb (status =? 200) then
      fn (Rejected {| message := str "Failed to get Shopify access token";
                      statusCode := Some status;
                      responseBody := Some body |}) x
    else
      match JSON_parse body with
      | None =>
          fn (Rejected {| message := str "Failed to parse the response body";
                          statusCode := Some status;
                          responseBody := Some body |}) x
      | Some parsed =>
          match access_token parsed with
          | Some token => fn (Fulfilled token) x
          | None => x
          end
      end.

Definition on_error (err : jserror) (x : exchange) : exchange :=
  if negb (timer x) then x
  else fn (Rejected err) (clearTimeout x).

Definition dispatch (x : exchange) (ev : event) : exchange :=
  match ev with
  | EvTimeout =>
      if pending_timeout x
      then on_timeout (Exchange (sent x) (timer x) false (aborted x)
                                (response x) (calls x))
      else x
  | EvResponse status => on_response status x
  | EvData chunk => on_data chunk x
  | EvEnd =>
      match response x with
      | Some (status, body) => on_end status body x
      | None => x
      end
  | EvError err => on_error err x
  end.

Definition run (x : exchange) (evs : list event) : exchange :=
  fold_left dispatch evs x.
End Exchange.

Arguments sent {tok} e.
Arguments timer {tok} e.
Arguments pending_timeout {tok} e.
Arguments aborted {tok} e.
Arguments response {tok} e.
Arguments calls {tok} e.
Arguments getAccessToken {tok} JSON_stringify this shop code.
Arguments dispatch {json tok} JSON_parse access_token x ev.
Arguments run {json tok} JSON_parse access_token x evs.

End Callback.

(* ------------------------------------------------------------------ *)
(** ** The example application

    The two routes of [example/index.js], each as a function of the
    session and the request that gives the session it leaves and what it
    answers. *)

Module ExampleApp.

Section App.
(** The token is what [getAccessToken] resolved with; [json_truthy] is
    its [ToBoolean].  [config_shop] is [config.shop]. *)
Variable json : Type.
Variable json_truthy : json -> bool.
Variable url_format : urlObject -> jsstring.
Variable config_shop : jsstring.

(** [req.session]: [None] is a token that is not there. *)
Record session : Type := Session {
  session_token : option json;
  session_state : value
}.

Inductive answer : Type :=
| Send (status : Z) (body : jsstring)
| Redirect (uri : jsstring)
(** [getAccessToken(shop, code)] is called; the answer follows when its
    promise settles *)
| Exchanging (shop code : value).

(** [app.get('/', ...)]; [randomBytes] is the draw of [generateNonce],
    [randomBytes'] the one [generateAuthUrl] would make. *)
Definition home (this : instance) (randomBytes randomBytes' : buffer)
  (s : session) : session * answer :=
  if match session_token s with Some t => json_truthy t | None => false end
  then (s, Send 200 (str "Token ready to be used"))
  else
    let nonce := generateNonce randomBytes in
    let uri :=
      generateAuthUrl url_format this randomBytes' config_shop
                      VUndefined (VStr nonce) VUndefined in
    (Session (session_token s) (VStr nonce), Redirect uri).

(** [state !== req.session.state], for a string [state] *)
Definition differs (state : jsstring) (v : value) : bool :=
  match v with
  | VStr s => negb (streq state s)
  | _ => true
  end.

(** [app.get('/callback', ...)], up to the call of [getAccessToken]. *)
Definition callback (this : instance) (s : session) (query : object)
  : completion answer :=
  match get query (str "state") with
  | VStr state =>
      if differs state (session_state s)
      then Return (Send 400 (str "Security checks failed"))
      else
        ok <- verifyHmac this query ;;
        if negb ok then Return (Send 400 (str "Security checks failed"))
        else Return (Exchanging (get query (str "shop")) (get query (str "code")))
  | _ => Return (Send 400 (str "Security checks failed"))
  end.

(** The [then] and the [catch] of the promise. *)
Definition settled (s : session) (outcome : settlement json) : session * answer :=
  match outcome with
  | Fulfilled token => (Session (Some token) VUndefined, Redirect (str "/"))
  | Rejected err => (s, Send 500 (str "Oops, something went wrong"))
  end.
End App.

Arguments Session {json} session_token session_state.
Arguments session_token {json} s.
Arguments session_state {json} s.
Arguments home {json} json_truthy url_format config_shop this randomBytes randomBytes' s.
Arguments callback {json} this s query.
Arguments settled {json} s outcome.

End ExampleApp.

(* ------------------------------------------------------------------ *)
(** ** The specification's account of the verifier

    These definitions follow the words of the specification, not the
    source; the theorems compare the two. *)

Module Spec.

(** "percent-encode the key by escaping the three characters [%], [&], [=]" *)
Definition escape_key (key : jsstring) : jsstring :=
  flat_map (fun c => if c =? 37 then str "%25"
                     else if c =? 38 then str "%26"
                     else if c =? 61 then str "%3D"
                     else [c]) key.

(** "percent-encode the value by escaping [%] and [&] only (not [=])" *)
Definition escape_value (v : jsstring) : jsstring :=
  flat_map (fun c => if c =? 37 then str "%25"
                     else if c =? 38 then str "%26"
                     else [c]) v.

(** "every key in the input mapping except the reserved keys [hmac] and
    [signature]" *)
Definition signed_keys (query : object) : list jsstring :=
  filter (fun key => negb (streq key (str "hmac") || streq key (str "signature")))
         (Object_keys query).

(** "Join each pair as [key=value]", a multi-valued field serialized first
    and a non-string scalar stringified first. *)
Definition signed_pairs (query : object) : list jsstring :=
  map (fun key => escape_key key ++ str "=" ++ escape_value (pair_value (get query key)))
      (signed_keys query).

(** "lexicographically (byte-wise ascending)": the order of the UTF-8
    bytes of the two strings. *)
Definition bytewise_ltb (a b : jsstring) : bool := str_ltb (utf8 a) (utf8 b).

(** A string of ASCII characters; its UTF-8 bytes are its code units. *)
Definition ascii (s : jsstring) : Prop := Forall (fun c => 0 <= c < 128) s.

(** "Sort the resulting [key=value] strings ... and join them with [&]." *)
Definition canonical (query : object) : jsstring :=
  join_by (fun p => p) (str "&") (sort_with bytewise_ltb (signed_pairs query)).

Fixpoint bytes_eqb (a b : list Z) : bool :=
  match a, b with
  | [], [] => true
  | x :: a', y :: b' => (x =? y) && bytes_eqb a' b'
  | _, _ => false
  end.

(** "Return true only on exact byte-for-byte match of equal-length
    digests", after rejecting an [hmac] field that "is absent, is not a
    string, or is not exactly 64 hexadecimal characters". *)
Definition verify (secret : jsstring) (query : object) : bool :=
  match get query (str "hmac") with
  | VStr hmac =>
      (length hmac =? 64)%nat && forallb is_hex_digit hmac
      && bytes_eqb (Crypto.hmac_sha256 (utf8 secret) (utf8 (canonical query)))
                   (Buffer_from_hex hmac)
  | _ => false
  end.

(** *** The exchange: "exactly one of the following transitions fires, and
    only the first to fire is honored" *)

Section Outcome.
Variable json : Type.
Variable JSON_parse : jsstring -> option json.

(** TimedOut: "a timeout error; carries no status code or body". *)
Definition timed_out : jserror := mkError (str "Request timed out").

(** A complete response: ServerError, ParseError or Success. *)
Definition classify (status : Z) (body : jsstring) : settlement json :=
  if status =? 200 then
    match JSON_parse body with
    | Some payload => Fulfilled payload
    | None =>
        Rejected {| message := str "Failed to parse the response body";
                    statusCode := Some 200;
                    responseBody := Some body |}
    end
  else
    Rejected {| message := str "Failed to get Shopify access token";
                statusCode := Some status;
                responseBody := Some body |}.

(** The outcome of a sequence of events: that of the first timeout,
    transport error or completed response in it; [resp] is the response
    being buffered. *)
Fixpoint first_outcome (resp : option (Z * jsstring)) (evs : list event)
  : option (settlement json) :=
  match evs with
  | [] => None
  | EvTimeout :: _ => Some (Rejected timed_out)
  | EvError err :: _ => Some (Rejected err)
  | EvResponse status :: rest => first_outcome (Some (status, [])) rest
  | EvData chunk :: rest =>
      first_outcome (match resp with
                     | Some (status, body) => Some (status, body ++ chunk)
                     | None => None
                     end) rest
  | EvEnd :: rest =>
      match resp with
      | Some (status, body) => Some (classify status body)
      | None => first_outcome resp rest
      end
  end.
End Outcome.

Arguments classify {json} JSON_parse status body.
Arguments first_outcome {json} JSON_parse resp evs.

(** Events that leave the exchange in flight: the head of a response and
    the chunks of its body. *)
Definition in_flight (ev : event) : bool :=
  match ev with
  | EvResponse _ | EvData _ => true
  | _ => false
  end.

(** "fall back to instance-level defaults when omitted" *)
Definition otherwise {A : Type} (given : option A) (default : A) : A :=
  match given with
  | Some a => a
  | None => default
  end.

(** A required option that is not there, or is there and empty. *)
Definition lacking (o : option jsstring) : Prop := o = None \/ o = Some [].

End Spec.

(* ------------------------------------------------------------------ *)
(** ** Sample data: the fixtures of the test suite *)

(** The instance of the test suite. *)
Definition test_instance : instance :=
  {| accessMode := []; scopes := VStr (str "read_content"); timeout := 60000;
     sharedSecret := str "foo"; redirectUri := str "bar"; apiKey := str "baz";
     agent := None |}.

Definition test_options : options :=
  {| opt_redirectUri := Some (str "bar"); opt_sharedSecret := Some (str "foo");
     opt_apiKey := Some (str "baz"); opt_scopes := None; opt_timeout := None;
     opt_accessMode := None; opt_agent := None |}.

(** The callback of 'returns true if the message is authentic'. *)
Definition authentic_hmac : jsstring :=
  str "3d9b9a7918ac20dfd03b6a0af54a58f0a47980145ae81a37f41597a1e34b528d".

Definition callback (hmac timestamp : jsstring) : object :=
  [ (str "hmac", VStr hmac);
    (str "state", VStr (str "b77827e928ee8eee614b5808d3276c8a"));
    (str "code", VStr (str "4d732838ad8c22cd1d2dd96f8a403fb7"));
    (str "shop", VStr (str "qux.myshopify.com"));
    (str "timestamp", VStr timestamp) ].

Definition authentic_query : object := callback authentic_hmac (str "1451929074").

(** Its second callback, with a multi-valued field. *)
Definition multi_valued_query : object :=
  [ (str "hmac", VStr (str "ffe89c5d47dd26297d47b68e6ad14cf4ee6f11a72b3da7c7a0974d0c3959579a"));
    (str "shop", VStr (str "qux.myshopify.com"));
    (str "timestamp", VStr (str "1492784493"));
    (str "quuz", VArr [VNum 1; VNum 2]);
    (str "corge", VStr (str "grault")) ].

(** A callback whose digest under the secret [foo] ends in a zero byte,
    [860be834...5d926800], sent with the last two digits of [hmac]
    replaced by [zz]. *)
Definition truncated_hmac : jsstring :=
  str "860be834cc84584ce137943d35566caf66bb4aa57922c8019f0e80925d9268zz".

Definition truncated_query : object := callback truncated_hmac (str "1451929155").

(** Two keys outside ASCII: [U+FF5E], one code unit and three UTF-8
    bytes [EF BD 9E], and [U+1F600], the surrogate pair [D83D DE00] and
    four UTF-8 bytes [F0 9F 98 80].  The [hmac] is the digest, under the
    secret [foo], of the pairs in the order of their bytes. *)
Definition key_ff5e : jsstring := [0xFF5E].
Definition key_1f600 : jsstring := [0xD83D; 0xDE00].

Definition astral_query : object :=
  [ (key_ff5e, VStr (str "1"));
    (key_1f600, VStr (str "2"));
    (str "hmac", VStr (str "86f6fb961d471939accdd92a3528fce93c1e20b1e501c55c5086b4bc6da89ba7")) ].

(** The string [["x"]]. *)
Definition bracketed_x : jsstring :=
  str "[" ++ [dquote] ++ str "x" ++ [dquote] ++ str "]".

(** A reader of the flat objects with string values the token endpoint
    answers with, [{"k":"v",...}] without escapes and white space.  It
    stands for [JSON.parse] where an example needs one. *)
Fixpoint read_until_quote (s : jsstring) : option (jsstring * jsstring) :=
  match s with
  | [] => None
  | c :: t =>
      if c =? dquote then Some ([], t)
      else match read_until_quote t with
           | Some (w, rest) => Some (c :: w, rest)
           | None => None
           end
  end.

Fixpoint read_members (fuel : nat) (s : jsstring)
  : option (list (jsstring * jsstring)) :=
  match fuel, s with
  | S fuel', q :: t =>
      if q =? dquote then
        match read_until_quote t with
        | Some (k, colon :: q' :: t') =>
            if (colon =? 58) && (q' =? dquote) then
              match read_until_quote t' with
              | Some (v, [125]) => Some [(k, v)]
              | Some (v, 44 :: t'') =>
                  option_map (cons (k, v)) (read_members fuel' t'')
              | _ => None
              end
            else None
        | _ => None
        end
      else None
  | _, _ => None
  end.

Definition parse_flat_object (s : jsstring) : option (list (jsstring * jsstring)) :=
  match s with
  | [123; 125] => Some []
  | 123 :: t => read_members (length t) t
  | _ => None
  end.

Definition quoted (s : jsstring) : jsstring := dquote :: s ++ [dquote].

(** The body [{"access_token":"T","scope":"read_content"}]. *)
Definition token_body : jsstring :=
  str "{" ++ quoted (str "access_token") ++ str ":" ++ quoted (str "T")
    ++ str "," ++ quoted (str "scope") ++ str ":" ++ quoted (str "read_content")
    ++ str "}".

Definition token_payload : list (jsstring * jsstring) :=
  [ (str "access_token", str "T"); (str "scope", str "read_content") ].

Definition html_body : jsstring :=
  str "<!DOCTYPE html><html><head></head><body></body></html>".

(** [JSON.stringify] on an object of strings that need no escape. *)
Definition stringify_flat (o : object) : jsstring :=
  str "{"
    ++ join_by (fun kv => quoted (fst kv) ++ str ":" ++ quoted (toString (snd kv)))
               (str ",") o
    ++ str "}".

Definition test_shop : jsstring := str "qux.myshopify.com".
Definition test_code : jsstring := str "4d732838ad8c22cd1d2dd96f8a403fb7".

(** The options of the test suite with an empty [apiKey]. *)
Definition empty_apiKey_options : options :=
  {| opt_redirectUri := Some (str "bar"); opt_sharedSecret := Some (str "foo");
     opt_apiKey := Some []; opt_scopes := None; opt_timeout := None;
     opt_accessMode := None; opt_agent := None |}.

(* ------------------------------------------------------------------ *)
(** ** Notions used to state further properties *)

(** What a query contributes to the signed string: every key but [hmac]
    and [signature], with its value as [verifyHmac] serializes it. *)
Definition signed_entries (query : object) : list (jsstring * jsstring) :=
  map (fun key => (key, pair_value (get query key))) (Spec.signed_keys query).

(** A byte. *)
Definition is_byte (x : Z) : Prop := 0 <= x <= 255.

(** A digit of lower-case hexadecimal, [0-9a-f]. *)
Definition is_lower_hex (c : Z) : bool :=
  ((48 <=? c) && (c <=? 57)) || ((97 <=? c) && (c <=? 102)).

(** The outcome of a promise whose payload goes through [f]. *)
Definition settlement_map {A B : Type} (f : A -> B) (s : settlement A)
  : settlement B :=
  match s with
  | Fulfilled v => Fulfilled (f v)
  | Rejected e => Rejected e
  end.

(** The two promise revisions in step: the same variables, and the
    promise of the older one holds the payload read through [f]. *)
Definition in_step {json tok : Type} (f : json -> tok)
  (x : exchange tok) (y : exchange json) : Prop :=
  timer x = timer y /\ pending_timeout x = pending_timeout y
  /\ aborted x = aborted y /\ response x = response y
  /\ promise x = option_map (settlement_map f) (promise y).

(** The callback revision in step with the promise revision: the same
    variables, and the promise holds the first call of [fn]. *)
Definition follows {tok : Type} (c : Callback.exchange tok) (x : exchange tok)
  : Prop :=
  Callback.sent c = sent x
  /\ Callback.timer c = timer x /\ Callback.pending_timeout c = pending_timeout x
  /\ Callback.aborted c = aborted x /\ Callback.response c = response x
  /\ hd_error (Callback.calls c) = promise x.

(** [JSON.parse] on the text [null] and on flat objects of strings, and
    the read of [.access_token] on what it gives: the read throws on
    [null], here [None]. *)
Definition parse_nullable (s : jsstring)
  : option (option (list (jsstring * jsstring))) :=
  if streq s (str "null") then Some None
  else option_map Some (parse_flat_object s).

Definition read_access_token (v : option (list (jsstring * jsstring)))
  : option value :=
  match v with
  | None => None
  | Some o => Some (get (map (fun kv => (fst kv, VStr (snd kv))) o)
                        (str "access_token"))
  end.

(** A printer of URL objects without any escaping; it stands for
    [url.format] where an example needs one. *)
Definition url_format_plain (u : urlObject) : jsstring :=
  protocol u ++ str "//" ++ hostname u ++ pathname u ++ str "?"
    ++ join_by (fun kv => fst kv ++ str "=" ++ toString (snd kv)) (str "&") (query u).

(** The digest [verifyHmac] computes for a query, printed in lower-case
    hexadecimal: the [hmac] a signer holding the shared secret sends. *)
Definition expected_hmac (this : instance) (query : object) : jsstring :=
  Buffer_toString_hex
    (Crypto.hmac_sha256
       (utf8 (sharedSecret this))
       (utf8 (join_by (fun p => p) (str "&") (sort (Spec.signed_pairs query))))).

(* ------------------------------------------------------------------ *)
(** ** The platform functions and the fixtures, evaluated *)

Example sha256_constants :
  length Crypto.K256 = 64%nat
  /\ nth 0 Crypto.K256 0 = 0x428a2f98 /\ nth 63 Crypto.K256 0 = 0xc67178f2
  /\ Crypto.ha Crypto.H0 = 0x6a09e667 /\ Crypto.hh Crypto.H0 = 0x5be0cd19.
Proof. vm_compute. repeat split. Qed.

Example sha256_abc :
  Crypto.sha256 (str "abc") =
  [0xba; 0x78; 0x16; 0xbf; 0x8f; 0x01; 0xcf; 0xea; 0x41; 0x41; 0x40; 0xde;
   0x5d; 0xae; 0x22; 0x23; 0xb0; 0x03; 0x61; 0xa3; 0x96; 0x17; 0x7a; 0x9c;
   0xb4; 0x10; 0xff; 0x61; 0xf2; 0x00; 0x15; 0xad].
Proof. vm_compute. reflexivity. Qed.

(** RFC 4231, test case 6: a key longer than a block. *)
Example hmac_sha256_long_key :
  Buffer_toString_hex
    (Crypto.hmac_sha256 (repeat 0xaa 131)
       (str "Test Using Larger Than Block-Size Key - Hash Key First"))
  = str "60e431591ee0b67f0d8a26aacbf5b77f8e0bc6213728c5140546040f0ee37f54".
Proof. vm_compute. reflexivity. Qed.

Example utf8_samples :
  utf8 [0x24] = [0x24] /\ utf8 [0xE9] = [0xC3; 0xA9]
  /\ utf8 [0x20AC] = [0xE2; 0x82; 0xAC]
  /\ utf8 [0xD83D; 0xDE00] = [0xF0; 0x9F; 0x98; 0x80]
  /\ utf8 [0xFF5E] = [0xEF; 0xBD; 0x9E].
Proof. vm_compute. repeat split. Qed.

Example toString_samples :
  toString (VNum 1492784493) = str "1492784493"
  /\ toString (VNum (-7)) = str "-7" /\ toString (VNum 0) = str "0"
  /\ toString (VArr [VNum 1; VNull; VArr [VStr (str "a"); VBool true]]) = str "1,,a,true".
Proof. vm_compute. repeat split. Qed.

Example encodeURIComponent_samples :
  encodeURIComponent (str "%") = Return (str "%25")
  /\ encodeURIComponent (str "&") = Return (str "%26")
  /\ encodeURIComponent (str "=") = Return (str "%3D")
  /\ encodeURIComponent [0x20AC] = Return (str "%E2%82%AC")
  /\ encodeURIComponent [0xD83D] = Throw URIError.
Proof. vm_compute. repeat split. Qed.

Example Buffer_from_hex_samples :
  Buffer_from_hex (str "1ag123") = [0x1a] /\ Buffer_from_hex (str "1a7") = [0x1a]
  /\ Buffer_from_hex (str "1634") = [0x16; 0x34] /\ Buffer_from_hex (str "AbCd") = [0xab; 0xcd].
Proof. vm_compute. repeat split. Qed.

Example encoders_samples :
  encodeKey (str "a=b&c%") = Return (str "a%3Db%26c%25")
  /\ encodeValue (str "a=b&c%") = Return (str "a=b%26c%25")
  /\ pair_value (VArr [VNum 1; VNum 2])
     = str "[" ++ quoted (str "1") ++ str ", " ++ quoted (str "2") ++ str "]"
  /\ pair_value (VArr []) = str "[" ++ quoted [] ++ str "]"
  /\ pair_value (VNum 42) = str "42".
Proof. vm_compute. repeat split. Qed.

Example sort_samples :
  sort [str "b"; str "a"; str "B"; str "ab"; str "a"]
  = [str "B"; str "a"; str "a"; str "ab"; str "b"].
Proof. vm_compute. reflexivity. Qed.

(** 'allows to use a custom nonce' and 'allows to override the default
    access mode'. *)
Example authUrlObject_fixtures :
  authUrlObject test_instance [] (str "qux") VUndefined (VStr (str "corge")) VUndefined
  = {| pathname := str "/admin/oauth/authorize";
       hostname := str "qux.myshopify.com";
       protocol := str "https:";
       query := [ (str "scope", VStr (str "read_content"));
                  (str "state", VStr (str "corge"));
                  (str "redirect_uri", VStr (str "bar"));
                  (str "client_id", VStr (str "baz")) ] |}
  /\ query (authUrlObject test_instance [] (str "qux")
                          (VArr [VStr (str "read_products"); VStr (str "read_themes")])
                          (VStr (str "corge")) (VStr (str "per-user")))
     = [ (str "scope", VStr (str "read_products,read_themes"));
         (str "state", VStr (str "corge"));
         (str "redirect_uri", VStr (str "bar"));
         (str "client_id", VStr (str "baz"));
         (str "grant_options[]", VStr (str "per-user")) ].
Proof. vm_compute. split; reflexivity. Qed.

Example constructor_fixture : constructor (Some test_options) = Return test_instance.
Proof. vm_compute. reflexivity. Qed.

Example verifyHmac_authentic : verifyHmac test_instance authentic_query = Return true.
Proof. vm_compute. reflexivity. Qed.

Example verifyHmac_multi_valued : verifyHmac test_instance multi_valued_query = Return true.
Proof. vm_compute. reflexivity. Qed.

Example verifyHmac_not_authentic :
  verifyHmac test_instance (callback authentic_hmac (str "1451933938")) = Return false.
Proof. vm_compute. reflexivity. Qed.

Example verifyHmac_empty : verifyHmac test_instance [] = Return false.
Proof. vm_compute. reflexivity. Qed.

(* ------------------------------------------------------------------ *)
(** ** Facts about the platform functions *)

Lemma streq_refl (s : jsstring) : streq s s = true.
Proof.
  induction s as [|c t IH]; simpl; [reflexivity|].
  now rewrite Z.eqb_refl, IH.
Qed.

Lemma streq_eq (a b : jsstring) : streq a b = true <-> a = b.
Proof.
  split; [|intros ->; apply streq_refl].
  revert b; induction a as [|x a IH]; intros [|y b]; simpl; try discriminate; auto.
  intros H; apply andb_true_iff in H; destruct H as [Hxy Hab].
  apply Z.eqb_eq in Hxy; subst; f_equal; auto.
Qed.

Lemma mapM_Return {A B : Type} (f : A -> completion B) (g : A -> B) (l : list A) :
  (forall x, In x l -> f x = Return (g x)) -> mapM f l = Return (map g l).
Proof.
  induction l as [|x t IH]; intros H; simpl; [reflexivity|].
  rewrite (H x (or_introl eq_refl)); simpl.
  rewrite IH by (intros y Hy; apply H; now right).
  reflexivity.
Qed.

(** [encodeURIComponent] never throws on the characters the two regular
    expressions match, and the two encoders escape as documented. *)
Lemma encodeKey_escape (s : jsstring) : encodeKey s = Return (Spec.escape_key s).
Proof.
  unfold encodeKey.
  induction s as [|c t IH]; [reflexivity|].
  cbn [replace_class Spec.escape_key flat_map].
  fold (Spec.escape_key t). rewrite IH.
  destruct (c =? 37) eqn:E1; [apply Z.eqb_eq in E1; subst c; reflexivity|].
  destruct (c =? 38) eqn:E2; [apply Z.eqb_eq in E2; subst c; reflexivity|].
  destruct (c =? 61) eqn:E3; [apply Z.eqb_eq in E3; subst c; reflexivity|].
  reflexivity.
Qed.

Lemma encodeValue_escape (s : jsstring) : encodeValue s = Return (Spec.escape_value s).
Proof.
  unfold encodeValue.
  induction s as [|c t IH]; [reflexivity|].
  cbn [replace_class Spec.escape_value flat_map].
  fold (Spec.escape_value t). rewrite IH.
  destruct (c =? 37) eqn:E1; [apply Z.eqb_eq in E1; subst c; reflexivity|].
  destruct (c =? 38) eqn:E2; [apply Z.eqb_eq in E2; subst c; reflexivity|].
  reflexivity.
Qed.

(** *** The default sort gives a sorted rearrangement *)

Lemma str_ltb_asym (a b : jsstring) : str_ltb a b = true -> str_ltb b a = false.
Proof.
  revert b; induction a as [|x a IH]; intros [|y b]; simpl; try discriminate; auto.
  destruct (x <? y) eqn:Exy.
  - intros _. apply Z.ltb_lt in Exy.
    assert ((y <? x) = false) as -> by (apply Z.ltb_ge; lia). reflexivity.
  - destruct (y <? x) eqn:Eyx; [discriminate|]. apply IH.
Qed.

Lemma insert_sorted_perm lt (x : jsstring) (l : list jsstring) :
  Permutation (insert_sorted lt x l) (x :: l).
Proof.
  induction l as [|y t IH]; simpl; [reflexivity|].
  destruct (lt x y); [reflexivity|].
  rewrite IH. apply perm_swap.
Qed.

Lemma sort_with_perm lt (l : list jsstring) : Permutation (sort_with lt l) l.
Proof.
  induction l as [|x t IH]; simpl; [reflexivity|].
  rewrite insert_sorted_perm. now constructor.
Qed.

Lemma insert_sorted_hd (x y : jsstring) (l : list jsstring) :
  str_le y x -> HdRel str_le y l -> HdRel str_le y (insert_sorted str_ltb x l).
Proof.
  intros Hyx Hl. destruct l as [|z t]; simpl; [now constructor|].
  destruct (str_ltb x z); constructor; auto.
  now inversion Hl.
Qed.

Lemma insert_sorted_sorted (x : jsstring) (l : list jsstring) :
  Sorted str_le l -> Sorted str_le (insert_sorted str_ltb x l).
Proof.
  induction l as [|y t IH]; intros Hs; simpl.
  - repeat constructor.
  - inversion Hs as [|? ? Ht Hhd]; subst.
    destruct (str_ltb x y) eqn:E.
    + constructor; [assumption|]. constructor. now apply str_ltb_asym.
    + constructor; [now apply IH|]. now apply insert_sorted_hd.
Qed.

Lemma sort_sorted (l : list jsstring) : Sorted str_le (sort l).
Proof.
  unfold sort. induction l as [|x t IH]; simpl; [constructor|].
  now apply insert_sorted_sorted.
Qed.

(** Two orders that agree on the strings of a list sort it alike. *)
Lemma insert_sorted_ext lt1 lt2 (x : jsstring) (l : list jsstring) :
  (forall y, In y l -> lt1 x y = lt2 x y) ->
  insert_sorted lt1 x l = insert_sorted lt2 x l.
Proof.
  induction l as [|y t IH]; intros H; simpl; [reflexivity|].
  rewrite (H y (or_introl eq_refl)).
  destruct (lt2 x y); [reflexivity|].
  f_equal. apply IH. intros z Hz. apply H. now right.
Qed.

Lemma sort_with_ext lt1 lt2 (l : list jsstring) :
  (forall x y, In x l -> In y l -> lt1 x y = lt2 x y) ->
  sort_with lt1 l = sort_with lt2 l.
Proof.
  induction l as [|x t IH]; intros H; simpl; [reflexivity|].
  rewrite IH by (intros y z Hy Hz; apply H; now right).
  apply insert_sorted_ext. intros y Hy. apply H; [now left|right].
  apply (Permutation_in _ (sort_with_perm lt2 t)). exact Hy.
Qed.

(** *** The comparison loop *)

Lemma timingSafeEqual_loop (a b : buffer) (idx : list nat) (acc : Z) :
  fold_left (fun result i => Z.lor result (Z.lxor (nth i a 0) (nth i b 0))) idx acc = 0
  <-> acc = 0 /\ forall i, In i idx -> nth i a 0 = nth i b 0.
Proof.
  revert acc; induction idx as [|j t IH]; intros acc; simpl.
  - split; [intros ->; split; [reflexivity|tauto] | tauto].
  - rewrite IH, Z.lor_eq_0_iff. split.
    + intros [[Hacc Hj] Ht]. split; [assumption|].
      intros i [<-|Hi]; [now apply Z.lxor_eq | now apply Ht].
    + intros [Hacc H]. repeat split; auto.
      rewrite (H j (or_introl eq_refl)). apply Z.lxor_nilpotent.
Qed.

(** What [timingSafeEqual] decides: [b] agrees with [a] at every index
    of [a], an index [b] does not have reading as [0]. *)
Lemma timingSafeEqual_spec (a b : buffer) :
  timingSafeEqual a b = true
  <-> forall i, (i < length a)%nat -> nth i a 0 = nth i b 0.
Proof.
  unfold timingSafeEqual. rewrite Z.eqb_eq, timingSafeEqual_loop.
  split.
  - intros [_ H] i Hi. apply H, in_seq. lia.
  - intros H. split; [reflexivity|]. intros i Hi. apply H. apply in_seq in Hi. lia.
Qed.

Lemma timingSafeEqual_same_length (a b : buffer) :
  length a = length b -> (timingSafeEqual a b = true <-> a = b).
Proof.
  intros Hlen. rewrite timingSafeEqual_spec. split.
  - intros H. apply (nth_ext a b 0 0 Hlen). exact H.
  - intros ->. reflexivity.
Qed.

(** *** Digests and their hexadecimal form *)

Lemma sha256_length (msg : buffer) : length (Crypto.sha256 msg) = 32%nat.
Proof. reflexivity. Qed.

Lemma hmac_sha256_length (key msg : buffer) :
  length (Crypto.hmac_sha256 key msg) = 32%nat.
Proof. apply sha256_length. Qed.

Lemma Buffer_from_hex_length (n : nat) (s : jsstring) :
  length s = (2 * n)%nat -> forallb is_hex_digit s = true ->
  length (Buffer_from_hex s) = n.
Proof.
  revert s; induction n as [|n IH]; intros s Hlen Hhex.
  - destruct s; [reflexivity|discriminate].
  - destruct s as [|a [|b t]]; simpl in Hlen; try lia.
    cbn [forallb] in Hhex.
    apply andb_true_iff in Hhex; destruct Hhex as [Ha Hhex].
    apply andb_true_iff in Hhex; destruct Hhex as [Hb Hhex].
    unfold is_hex_digit in Ha, Hb. cbn [Buffer_from_hex].
    destruct (unhex a); [|discriminate]. destruct (unhex b); [|discriminate].
    cbn [length]. f_equal. apply IH; [lia|assumption].
Qed.

Lemma hex_digit_range (c : Z) : is_hex_digit c = true -> 48 <= c <= 102.
Proof.
  unfold is_hex_digit, unhex.
  destruct ((48 <=? c) && (c <=? 57)) eqn:E1; [lia|].
  destruct ((97 <=? c) && (c <=? 102)) eqn:E2; [lia|].
  destruct ((65 <=? c) && (c <=? 70)) eqn:E3; [lia|discriminate].
Qed.

Lemma utf8_ascii (s : jsstring) : Spec.ascii s -> utf8 s = s.
Proof.
  induction 1 as [|c t Hc _ IH]; [reflexivity|].
  cbn [utf8]. unfold is_high_surrogate, is_low_surrogate, utf8_of_codepoint.
  assert ((0xD800 <=? c) = false) as -> by (apply Z.leb_gt; lia).
  assert ((0xDC00 <=? c) = false) as -> by (apply Z.leb_gt; lia).
  assert ((c <? 0x80) = true) as -> by (apply Z.ltb_lt; lia).
  simpl. now rewrite IH.
Qed.

Lemma utf8_hex (s : jsstring) : forallb is_hex_digit s = true -> utf8 s = s.
Proof.
  intros H. apply utf8_ascii. apply Forall_forall. intros c Hc.
  rewrite forallb_forall in H. apply H, hex_digit_range in Hc. lia.
Qed.

(* ------------------------------------------------------------------ *)
(** ** The signature verifier *)

Lemma signed_keys_filter (query : object) :
  filter (fun key => negb (streq key (str "signature")) && negb (streq key (str "hmac")))
         (Object_keys query)
  = Spec.signed_keys query.
Proof.
  unfold Spec.signed_keys. apply filter_ext. intros k.
  destruct (streq k (str "signature")), (streq k (str "hmac")); reflexivity.
Qed.

(** The pairs of [verifyHmac] are the documented pairs, sorted; building
    them never throws. *)
Lemma pairs_canonical (query : object) :
  pairs query = Return (sort (Spec.signed_pairs query)).
Proof.
  unfold pairs. rewrite signed_keys_filter.
  rewrite (mapM_Return _ (fun key => Spec.escape_key key ++ str "="
             ++ Spec.escape_value (pair_value (get query key)))).
  - reflexivity.
  - intros key _. now rewrite encodeKey_escape, encodeValue_escape.
Qed.

(** [verifyHmac] always returns a boolean. *)
Lemma verifyHmac_returns (this : instance) (query : object) :
  exists b, verifyHmac this query = Return b.
Proof.
  unfold verifyHmac. rewrite pairs_canonical. cbn [bind].
  destruct (get query (str "hmac")); eauto.
  destruct (negb _); eauto.
Qed.

(** A missing [hmac], one that is not a string, and one whose UTF-8 form
    is not 64 bytes long are rejected. *)
Lemma verifyHmac_guard (this : instance) (query : object) :
  (forall hmac, get query (str "hmac") = VStr hmac -> Buffer_byteLength hmac <> 64) ->
  verifyHmac this query = Return false.
Proof.
  intros H. unfold verifyHmac. rewrite pairs_canonical. cbn [bind].
  destruct (get query (str "hmac")) as [| | | |hmac|] eqn:E; try reflexivity.
  specialize (H hmac eq_refl). apply Z.eqb_neq in H. now rewrite H.
Qed.

(** *** The canonical string does not depend on the order of the keys *)

Lemma str_ltb_irrefl (a : jsstring) : str_ltb a a = false.
Proof.
  induction a as [|x a IH]; simpl; [reflexivity|].
  now rewrite Z.ltb_irrefl.
Qed.

Lemma str_le_antisym (a b : jsstring) : str_le a b -> str_le b a -> a = b.
Proof.
  unfold str_le. revert b; induction a as [|x a IH]; intros [|y b]; simpl;
    try discriminate; auto.
  destruct (x <? y) eqn:Exy; [discriminate|].
  destruct (y <? x) eqn:Eyx; [discriminate|].
  apply Z.ltb_ge in Exy, Eyx. intros H1 H2.
  assert (x = y) by lia. subst. f_equal. now apply IH.
Qed.

Lemma str_le_trans (a b c : jsstring) : str_le a b -> str_le b c -> str_le a c.
Proof.
  unfold str_le. revert b c; induction a as [|x a IH]; intros [|y b] [|z c]; simpl;
    try discriminate; auto.
  destruct (y <? x) eqn:Eyx; [discriminate|].
  destruct (z <? y) eqn:Ezy; [discriminate|].
  apply Z.ltb_ge in Eyx, Ezy.
  destruct (x <? y) eqn:Exy.
  - intros _. apply Z.ltb_lt in Exy.
    assert ((z <? x) = false) as -> by (apply Z.ltb_ge; lia).
    assert ((x <? z) = true) as -> by (apply Z.ltb_lt; lia). tauto.
  - apply Z.ltb_ge in Exy. assert (x = y) by lia. subst y.
    destruct (x <? z) eqn:Exz.
    + apply Z.ltb_lt in Exz.
      assert ((z <? x) = false) as -> by (apply Z.ltb_ge; lia). tauto.
    + apply Z.ltb_ge in Exz. assert (z = x) by lia. subst z.
      rewrite Z.ltb_irrefl. apply IH.
Qed.

Lemma sorted_rearrangement_unique (l1 l2 : list jsstring) :
  Sorted str_le l1 -> Sorted str_le l2 -> Permutation l1 l2 -> l1 = l2.
Proof.
  intros S1 S2.
  apply Sorted_StronglySorted in S1; [|exact str_le_trans].
  apply Sorted_StronglySorted in S2; [|exact str_le_trans].
  revert l2 S2; induction S1 as [|x t1 St1 IH Hx]; intros l2 S2 Hperm.
  - now apply Permutation_nil in Hperm.
  - destruct S2 as [|y t2 St2 Hy].
    + symmetry in Hperm. now apply Permutation_nil in Hperm.
    + assert (x = y) as ->.
      { assert (In x (y :: t2)) as Hin1
          by (apply (Permutation_in _ Hperm); now left).
        assert (In y (x :: t1)) as Hin2
          by (apply (Permutation_in _ (Permutation_sym Hperm)); now left).
        destruct Hin1 as [<-|Hin1]; [reflexivity|].
        destruct Hin2 as [->|Hin2]; [reflexivity|].
        rewrite Forall_forall in Hx, Hy.
        apply str_le_antisym; auto. }
      f_equal. apply IH; [assumption|].
      now apply Permutation_cons_inv in Hperm.
Qed.

Lemma sort_rearranged (l1 l2 : list jsstring) :
  Permutation l1 l2 -> sort l1 = sort l2.
Proof.
  intros H. apply sorted_rearrangement_unique; try apply sort_sorted.
  unfold sort. rewrite !sort_with_perm. exact H.
Qed.


Lemma get_not_In (o : object) (k : jsstring) :
  ~ In k (Object_keys o) -> get o k = VUndefined.
Proof.
  induction o as [|[k' v'] t IH]; simpl; intros Hnotin; [reflexivity|].
  destruct (streq k' k) eqn:E.
  - apply streq_eq in E. tauto.
  - apply IH. tauto.
Qed.




(** *** The claims on the verifier *)

(** The pairs of the astral fixture: [sort] puts the surrogate pair
    [D83D DE00] before [FF5E], the order of the UTF-8 bytes puts
    [EF BD 9E] before [F0 9F 98 80]. *)
Example astral_pairs :
  pairs astral_query
    = Return [key_1f600 ++ str "=2"; key_ff5e ++ str "=1"]
  /\ sort_with Spec.bytewise_ltb (Spec.signed_pairs astral_query)
    = [key_ff5e ++ str "=1"; key_1f600 ++ str "=2"].
Proof. vm_compute. split; reflexivity. Qed.

(** C1, as stated, fails: on the astral fixture the documented
    canonicalization, with its byte-wise sort, accepts the [hmac], and
    [verifyHmac], which sorts by UTF-16 code units, rejects it. *)
Lemma verifyHmac_sort_is_not_bytewise :
  Spec.verify (sharedSecret test_instance) astral_query = true
  /\ verifyHmac test_instance astral_query = Return false.
Proof. vm_compute. split; reflexivity. Qed.

(** C1 (amended): for every instance and every query whose [hmac] is a
    string of exactly 64 hexadecimal digits, [verifyHmac] builds the pairs
    [key=value] of every key but [hmac] and [signature], the key with
    [%], [&], [=] escaped and the value (an array serialized, a scalar
    stringified) with [%], [&] escaped; it sorts them ascending by UTF-16
    code units, which is the byte-wise order when the pairs are ASCII,
    joins them with [&], and returns [true] exactly when the SHA-256 HMAC
    of the UTF-8 form of that string under the shared secret is the digest
    the [hmac] digits spell. *)
Theorem verifyHmac_canonical_string
  (this : instance) (query : object) (hmac : jsstring) :
  get query (str "hmac") = VStr hmac ->
  length hmac = 64%nat ->
  forallb is_hex_digit hmac = true ->
  exists ps : list jsstring,
    pairs query = Return ps
    /\ Permutation ps (Spec.signed_pairs query)
    /\ Sorted str_le ps
    /\ (Forall Spec.ascii (Spec.signed_pairs query) ->
        join_by (fun p => p) (str "&") ps = Spec.canonical query)
    /\ exists b : bool,
         verifyHmac this query = Return b
         /\ (b = true <->
             Crypto.hmac_sha256 (utf8 (sharedSecret this))
                                (utf8 (join_by (fun p => p) (str "&") ps))
             = Buffer_from_hex hmac).
Proof.
  intros Hget Hlen Hhex.
  exists (sort (Spec.signed_pairs query)).
  split; [apply pairs_canonical|].
  split; [apply sort_with_perm|].
  split; [apply sort_sorted|].
  split.
  { intros Hascii. unfold Spec.canonical, sort. f_equal.
    apply sort_with_ext. intros x y Hx Hy.
    rewrite Forall_forall in Hascii. unfold Spec.bytewise_ltb.
    now rewrite !utf8_ascii by auto. }
  unfold verifyHmac. rewrite pairs_canonical. cbn [bind]. rewrite Hget.
  assert (Buffer_byteLength hmac = 64) as Hbytes.
  { unfold Buffer_byteLength. rewrite utf8_hex, Hlen by assumption. reflexivity. }
  rewrite Hbytes. cbn [Z.eqb Pos.eqb negb].
  eexists; split; [reflexivity|].
  apply timingSafeEqual_same_length.
  rewrite hmac_sha256_length. symmetry.
  now apply Buffer_from_hex_length.
Qed.

Lemma verifyHmac_canonical_string_witness :
  exists ps : list jsstring,
    pairs authentic_query = Return ps
    /\ Permutation ps (Spec.signed_pairs authentic_query)
    /\ Sorted str_le ps
    /\ (Forall Spec.ascii (Spec.signed_pairs authentic_query) ->
        join_by (fun p => p) (str "&") ps = Spec.canonical authentic_query)
    /\ exists b : bool,
         verifyHmac test_instance authentic_query = Return b
         /\ (b = true <->
             Crypto.hmac_sha256 (utf8 (sharedSecret test_instance))
                                (utf8 (join_by (fun p => p) (str "&") ps))
             = Buffer_from_hex authentic_hmac).
Proof.
  apply (verifyHmac_canonical_string test_instance authentic_query authentic_hmac);
    reflexivity.
Defined.

(** C2: [timingSafeEqual] has no check of the lengths.  On the digest of
    the truncated fixture, 32 bytes ending in a zero byte, and the 31 bytes
    its [hmac] decodes to, it answers [true]; so it does on a zero byte
    against the empty buffer and on the empty buffer against any other. *)
Theorem timingSafeEqual_unequal_lengths :
  exists ps : list jsstring,
    pairs truncated_query = Return ps
    /\ let digest :=
         Crypto.hmac_sha256 (utf8 (sharedSecret test_instance))
                            (utf8 (join_by (fun p => p) (str "&") ps)) in
       let supplied := Buffer_from_hex truncated_hmac in
       Buffer_toString_hex digest
       = str "860be834cc84584ce137943d35566caf66bb4aa57922c8019f0e80925d926800"
       /\ length digest = 32%nat /\ length supplied = 31%nat
       /\ timingSafeEqual digest supplied = true
       /\ timingSafeEqual [0] [] = true
       /\ timingSafeEqual [] [1] = true.
Proof. eexists. split; [vm_compute; reflexivity|]. vm_compute. repeat split. Qed.

(** C3: the guard of [verifyHmac] tests the length of [hmac], not its
    digits.  The [hmac] of the truncated fixture has 64 characters, two of
    them no hexadecimal digits, and [verifyHmac] returns [true]. *)
Theorem verifyHmac_accepts_non_hex_hmac :
  get truncated_query (str "hmac") = VStr truncated_hmac
  /\ length truncated_hmac = 64%nat
  /\ forallb is_hex_digit truncated_hmac = false
  /\ verifyHmac test_instance truncated_query = Return true.
Proof. vm_compute. repeat split. Qed.

(** C10: a key mapped to the array [["x"]] and the same key mapped to the
    string [["x"]] give two different queries with the same pairs, hence
    the same canonical string, and [verifyHmac] returns the same for both:
    an [hmac] valid for one is valid for the other. *)
Theorem verifyHmac_array_string_collision
  (this : instance) (key : jsstring) (rest : object) :
  let q1 := (key, VArr [VStr (str "x")]) :: rest in
  let q2 := (key, VStr bracketed_x) :: rest in
  q1 <> q2
  /\ pairs q1 = pairs q2
  /\ verifyHmac this q1 = verifyHmac this q2.
Proof.
  intros q1 q2.
  assert (pairs q1 = pairs q2) as Hpairs.
  { rewrite !pairs_canonical. do 2 f_equal.
    unfold Spec.signed_pairs, Spec.signed_keys, q1, q2. cbn [Object_keys map fst].
    apply map_ext. intros k. cbn [get].
    destruct (streq key k); reflexivity. }
  split; [discriminate|]. split; [exact Hpairs|].
  unfold verifyHmac. rewrite Hpairs.
  unfold q1, q2. cbn [get].
  destruct (streq key (str "hmac")); reflexivity.
Qed.

(** The collision on a callback: one digest, both queries accepted. *)
Example collision_accepted :
  let hmac := VStr (str "a376ff8453583eab65b2ae78a54aad1dd08397489973786d2bd524f30280d08e") in
  let rest := [(str "shop", VStr (str "qux.myshopify.com")); (str "hmac", hmac)] in
  verifyHmac test_instance ((str "ids", VArr [VStr (str "x")]) :: rest) = Return true
  /\ verifyHmac test_instance ((str "ids", VStr bracketed_x) :: rest) = Return true.
Proof. vm_compute. split; reflexivity. Qed.

(** *** The comparison by [===] of the older revision *)

Example IndexJs_verifyHmac_fixtures :
  IndexJs.verifyHmac test_instance authentic_query = Return true
  /\ IndexJs.verifyHmac test_instance multi_valued_query = Return true
  /\ IndexJs.verifyHmac test_instance truncated_query = Return false.
Proof. vm_compute. repeat split. Qed.

Lemma IndexJs_verifyHmac_exact (this : instance) (query : object) :
  IndexJs.verifyHmac this query = Return true
  <-> get query (str "hmac")
      = VStr (Buffer_toString_hex
                (Crypto.hmac_sha256
                   (utf8 (sharedSecret this))
                   (utf8 (join_by (fun p => p) (str "&")
                                  (sort (Spec.signed_pairs query)))))).
Proof.
  unfold IndexJs.verifyHmac. rewrite pairs_canonical. cbn [bind].
  set (digest := Buffer_toString_hex _). clearbody digest.
  destruct (get query (str "hmac")) as [| | | |hmac|]; try (split; discriminate).
  split.
  - intros H. injection H as H. apply streq_eq in H. rewrite H. reflexivity.
  - intros H. injection H as <-. rewrite streq_refl. reflexivity.
Qed.

(* ------------------------------------------------------------------ *)
(** ** The token exchange *)

Example parse_flat_object_samples :
  parse_flat_object token_body = Some token_payload
  /\ parse_flat_object html_body = None
  /\ parse_flat_object (str "{}") = Some [].
Proof. vm_compute. repeat split. Qed.

Section ExchangeFacts.
Context {json : Type}.
Variable JSON_parse : jsstring -> option json.
Variable JSON_stringify : object -> jsstring.

Lemma run_app (x : exchange json) (evs late : list event) :
  run JSON_parse x (evs ++ late) = run JSON_parse (run JSON_parse x evs) late.
Proof. apply fold_left_app. Qed.

(** A settled promise stays as it is. *)
Lemma dispatch_settled (x : exchange json) (ev : event) (s : settlement json) :
  promise x = Some s -> promise (dispatch JSON_parse x ev) = Some s.
Proof.
  destruct x as [rq tm pend ab resp pr]; simpl; intros ->.
  destruct ev as [|status|chunk| |err]; simpl.
  - destruct pend; reflexivity.
  - reflexivity.
  - destruct resp as [[st body]|]; reflexivity.
  - destruct resp as [[st body]|]; [|reflexivity].
    unfold on_end; simpl. destruct tm; simpl; [|reflexivity].
    destruct (st =? 200); simpl; [|reflexivity].
    destruct (JSON_parse body); reflexivity.
  - unfold on_error; simpl. destruct tm; reflexivity.
Qed.

Lemma run_settled (x : exchange json) (evs : list event) (s : settlement json) :
  promise x = Some s -> promise (run JSON_parse x evs) = Some s.
Proof.
  revert x; induction evs as [|ev evs IH]; intros x H; simpl; [assumption|].
  apply IH. now apply dispatch_settled.
Qed.

(** While the promise is pending the timer is armed and the variable
    [timer] holds its handle; the listeners then do what the first
    terminal event asks for. *)
Lemma run_first_outcome (x : exchange json) (evs : list event) :
  promise x = None -> timer x = true -> pending_timeout x = true ->
  promise (run JSON_parse x evs) = Spec.first_outcome JSON_parse (response x) evs.
Proof.
  revert x; induction evs as [|ev evs IH]; intros x Hpr Htm Hpend; simpl.
  - assumption.
  - destruct x as [rq tm pend ab resp pr]; simpl in *; subst.
    destruct ev as [|status|chunk| |err]; simpl.
    + now apply run_settled.
    + now apply IH.
    + destruct resp as [[st body]|]; now apply IH.
    + destruct resp as [[st body]|]; [|now apply IH].
      apply run_settled. unfold on_end, Spec.classify; simpl.
      destruct (st =? 200) eqn:E; simpl; [|reflexivity].
      apply Z.eqb_eq in E; subst st.
      destruct (JSON_parse body); reflexivity.
    + now apply run_settled.
Qed.

Lemma dispatch_invariant (x : exchange json) (ev : event) :
  timer_invariant x -> timer_invariant (dispatch JSON_parse x ev).
Proof.
  unfold timer_invariant.
  destruct x as [rq tm pend ab resp pr]; simpl.
  intros (Hnone & Hpend & Hnull & Hlive).
  destruct ev as [|status|chunk| |err]; simpl;
    unfold on_end, on_error, on_timeout, on_response, on_data, reject, resolve,
      settle, clearTimeout; simpl;
    repeat match goal with
           | |- context [match ?b with _ => _ end] => destruct b; simpl
           | |- context [if ?b then _ else _] => destruct b; simpl
           end;
    intuition (try discriminate; try congruence).
Qed.

Lemma run_invariant (x : exchange json) (evs : list event) :
  timer_invariant x -> timer_invariant (run JSON_parse x evs).
Proof.
  revert x; induction evs as [|ev evs IH]; intros x H; simpl; [assumption|].
  apply IH. now apply dispatch_invariant.
Qed.

Lemma getAccessToken_invariant (this : instance) (shop code : jsstring) :
  timer_invariant (getAccessToken (json := json) JSON_stringify this shop code).
Proof. unfold timer_invariant; simpl. intuition discriminate. Qed.

(** On a settled promise a timeout, an ['end'] and an ['error'] change
    nothing at all: the timeout is no longer pending, and the listeners
    either return at [if (!timer) return] or clear a timeout that is
    cleared and call [reject] or [resolve] on a promise that is settled. *)
Lemma dispatch_after_settlement (x : exchange json) (ev : event) :
timer_invariant x -> promise x <> None -> Spec.in_flight ev = false ->
dispatch JSON_parse x ev = x.
Proof.
  intros (Hp & _) Hpr Hev.
  assert (pending_timeout x = false) as Hpend.
  { destruct (pending_timeout x); [|reflexivity]. exfalso. now apply Hpr, Hp. }
  destruct x as [rq tm pend ab resp pr]; simpl in *; subst.
  destruct pr as [s|]; [|contradiction].
  destruct ev as [|status|chunk| |err]; simpl in *; try discriminate; try reflexivity.
  - destruct resp as [[st body]|]; [|reflexivity].
    unfold on_end; simpl. destruct tm; [|reflexivity]. simpl.
    destruct (st =? 200); simpl; [|reflexivity].
    destruct (JSON_parse body); reflexivity.
  - unfold on_error; simpl. destruct tm; reflexivity.
Qed.

(** The chunks of a body, then its end. *)
Lemma first_outcome_body (status : Z) (body : jsstring)
  (chunks : list jsstring) (late : list event) :
  Spec.first_outcome JSON_parse (Some (status, body)) (map EvData chunks ++ EvEnd :: late)
  = Some (Spec.classify JSON_parse status (body ++ concat chunks)).
Proof.
  revert body; induction chunks as [|c cs IH]; intros body; simpl.
  - now rewrite app_nil_r.
  - rewrite IH. now rewrite <- app_assoc.
Qed.

(** Events that leave the exchange in flight decide nothing. *)
Lemma first_outcome_in_flight (resp : option (Z * jsstring)) (evs late : list event) :
  forallb Spec.in_flight evs = true ->
  exists resp', Spec.first_outcome JSON_parse resp (evs ++ late)
                = Spec.first_outcome JSON_parse resp' late.
Proof.
  revert resp; induction evs as [|ev evs IH]; intros resp H; simpl.
  - now exists resp.
  - simpl in H. apply andb_true_iff in H; destruct H as [Hev Hevs].
    destruct ev; try discriminate; now apply IH.
Qed.

(** The timeout callback, run while the exchange is in flight. *)
Lemma run_timeout (x : exchange json) (evs late : list event) :
timer_invariant x -> promise x = None ->
forallb Spec.in_flight evs = true ->
let x' := run JSON_parse x (evs ++ EvTimeout :: late) in
timer x' = false /\ aborted x' = true
/\ promise x' = Some (Rejected Spec.timed_out).
Proof.
  intros Hinv Hpr Hevs x'.
  assert (timer x' = false) as Htm.
  { subst x'. rewrite run_app.
    assert (timer_invariant (run JSON_parse x evs)) as Hinv' by now apply run_invariant.
    assert (promise (run JSON_parse x evs) = None) as Hpr'.
    { destruct Hinv as (Hp & Ht & _).
      rewrite run_first_outcome by (try assumption; try apply Ht; now apply Hp).
      destruct (first_outcome_in_flight (response x) evs [] Hevs) as (resp' & E).
      rewrite app_nil_r in E. rewrite E. reflexivity. }
    destruct Hinv' as (Hp & _).
    apply Hp in Hpr'.
    change (run JSON_parse (run JSON_parse x evs) (EvTimeout :: late))
      with (run JSON_parse (dispatch JSON_parse (run JSON_parse x evs) EvTimeout) late).
    set (y := dispatch JSON_parse (run JSON_parse x evs) EvTimeout).
    assert (timer_invariant y /\ timer y = false) as (Hy & Hty).
    { split; [apply dispatch_invariant; now apply run_invariant|].
      subst y. unfold dispatch. rewrite Hpr'.
      unfold on_timeout, reject, settle; simpl.
      destruct (promise (run JSON_parse x evs)); reflexivity. }
    clearbody y. revert y Hy Hty.
    induction late as [|ev late IH]; intros y Hy Hty; simpl; [assumption|].
    apply IH; [now apply dispatch_invariant|].
    destruct y as [rq tm pend ab resp pr]; simpl in *; subst.
    destruct Hy as (_ & _ & Hnull & _). destruct (Hnull eq_refl) as (Hpend & _ & _).
    simpl in Hpend; subst.
    destruct ev as [|status|chunk| |err]; simpl; try reflexivity;
      destruct resp as [[st body]|]; reflexivity. }
  assert (timer_invariant x') as (_ & _ & Hnull & _)
    by (subst x'; now apply run_invariant).
  destruct (Hnull Htm) as (_ & Hab & Hrej). auto.
Qed.

(** C4: whatever the event loop delivers after [getAccessToken] and in
    whatever order, the promise is settled by the first timeout, transport
    error or completed response and by nothing after it: a settled promise
    keeps its outcome under every later event, and a later timeout, ['end']
    or ['error'] leaves the whole state as it is.  In particular, once the
    timeout has fired, [timer] is null, the request is aborted and the
    outcome is and stays the timeout error. *)
Theorem getAccessToken_first_event_wins
  (this : instance) (shop code : jsstring) (evs late : list event) :
let x := run JSON_parse (getAccessToken JSON_stringify this shop code) evs in
let x' := run JSON_parse (getAccessToken JSON_stringify this shop code) (evs ++ late) in
promise x = Spec.first_outcome JSON_parse None evs
/\ (forall s, promise x = Some s -> promise x' = Some s)
/\ (promise x <> None ->
    forall ev, Spec.in_flight ev = false -> dispatch JSON_parse x ev = x)
/\ (timer x = false ->
    aborted x = true
    /\ promise x = Some (Rejected Spec.timed_out)
    /\ promise x' = Some (Rejected Spec.timed_out)).
Proof.
  intros x x'.
  assert (timer_invariant x) as Hinv
    by (apply run_invariant, getAccessToken_invariant).
  split; [apply (run_first_outcome (getAccessToken JSON_stringify this shop code)); reflexivity|].
  split; [intros s Hs; subst x x'; rewrite run_app; now apply run_settled|].
  split; [intros Hne ev Hev; now apply dispatch_after_settlement|].
  intros Htm.
  pose proof Hinv as (_ & _ & Hnull & _). destruct (Hnull Htm) as (_ & Hab & Hrej).
  split; [assumption|]. split; [assumption|].
  subst x x'; rewrite run_app; now apply run_settled.
Qed.

(** C5: a response that completes while the exchange is in flight -- its
    head, the chunks of its body, its end -- with a status other than 200
    rejects the promise with an error whose [statusCode] is that status and
    whose [responseBody] is the buffered body; with status 200 and a body
    [JSON.parse] throws on, it rejects with an error whose [statusCode] is
    200 and whose [responseBody] is the body as received. *)
Theorem getAccessToken_rejects_bad_response
  (this : instance) (shop code : jsstring)
  (status : Z) (chunks : list jsstring) (late : list event) :
let body := concat chunks in
let x := run JSON_parse (getAccessToken JSON_stringify this shop code)
             (EvResponse status :: map EvData chunks ++ EvEnd :: late) in
(status <> 200 ->
 promise x = Some (Rejected {| message := str "Failed to get Shopify access token";
                               statusCode := Some status;
                               responseBody := Some body |}))
/\ (status = 200 -> JSON_parse body = None ->
    promise x = Some (Rejected {| message := str "Failed to parse the response body";
                                  statusCode := Some 200;
                                  responseBody := Some body |})).
Proof.
  intros body x.
  assert (promise x = Some (Spec.classify JSON_parse status body)) as Hx.
  { subst x. rewrite run_first_outcome by reflexivity.
    cbn [Spec.first_outcome]. now rewrite first_outcome_body. }
  rewrite Hx. unfold Spec.classify. split.
  - intros Hne. apply Z.eqb_neq in Hne. now rewrite Hne.
  - intros -> Hparse. simpl. now rewrite Hparse.
Qed.

(** C6: a response with status 200 whose buffered body [JSON.parse]
    accepts resolves the promise with the value [JSON.parse] returns. *)
Theorem getAccessToken_resolves_payload
  (this : instance) (shop code : jsstring)
  (chunks : list jsstring) (late : list event) (payload : json) :
JSON_parse (concat chunks) = Some payload ->
promise (run JSON_parse (getAccessToken JSON_stringify this shop code)
             (EvResponse 200 :: map EvData chunks ++ EvEnd :: late))
= Some (Fulfilled payload).
Proof.
  intros Hparse.
  rewrite run_first_outcome by reflexivity.
  cbn [Spec.first_outcome]. rewrite first_outcome_body.
  unfold Spec.classify. simpl. now rewrite Hparse.
Qed.

(** C8: when the timeout fires while the exchange is in flight -- nothing
    received, or the head of a response, or part of its body -- the
    request is aborted, which it was not before, and the promise is
    rejected with the error [Request timed out], which has no [statusCode]
    and no [responseBody]; what arrives later changes none of this. *)
Theorem getAccessToken_timeout
  (this : instance) (shop code : jsstring) (evs late : list event) :
forallb Spec.in_flight evs = true ->
let x0 := getAccessToken (json := json) JSON_stringify this shop code in
let x := run JSON_parse x0 (evs ++ EvTimeout :: late) in
aborted (run JSON_parse x0 evs) = false
/\ aborted x = true
/\ exists e : jserror,
     promise x = Some (Rejected e)
     /\ message e = str "Request timed out"
     /\ statusCode e = None /\ responseBody e = None.
Proof.
  intros Hevs x0 x.
  assert (timer_invariant x0) as H0 by apply getAccessToken_invariant.
  split.
  { assert (timer_invariant (run JSON_parse x0 evs)) as (Hp & Ht & _ & Hlive)
      by now apply run_invariant.
    apply Hlive, Ht, Hp.
    rewrite run_first_outcome by reflexivity.
    destruct (first_outcome_in_flight (response x0) evs [] Hevs) as (resp' & E).
    rewrite app_nil_r in E. now rewrite E. }
  destruct (run_timeout x0 evs late H0 eq_refl Hevs) as (_ & Hab & Hrej).
  split; [exact Hab|].
  exists Spec.timed_out. repeat split. exact Hrej.
Qed.

End ExchangeFacts.

Lemma getAccessToken_first_event_wins_witness :
  promise (run parse_flat_object
               (getAccessToken stringify_flat test_instance test_shop test_code)
               ([EvResponse 200; EvData (str "{"); EvTimeout]
                  ++ [EvData (str "}"); EvEnd; EvError (mkError (str "socket hang up"))]))
  = Some (Rejected Spec.timed_out).
Proof.
  destruct (getAccessToken_first_event_wins parse_flat_object stringify_flat
              test_instance test_shop test_code
              [EvResponse 200; EvData (str "{"); EvTimeout]
              [EvData (str "}"); EvEnd; EvError (mkError (str "socket hang up"))])
    as (_ & _ & _ & H).
  destruct (H eq_refl) as (_ & _ & H'). exact H'.
Defined.

Lemma getAccessToken_rejects_bad_response_witness :
  promise (run parse_flat_object
               (getAccessToken stringify_flat test_instance test_shop test_code)
               (EvResponse 400 :: map EvData [str "e"; str "rr"] ++ [EvEnd]))
  = Some (Rejected {| message := str "Failed to get Shopify access token";
                      statusCode := Some 400;
                      responseBody := Some (str "err") |})
  /\ promise (run parse_flat_object
               (getAccessToken stringify_flat test_instance test_shop test_code)
               (EvResponse 200 :: map EvData [html_body] ++ [EvEnd]))
  = Some (Rejected {| message := str "Failed to parse the response body";
                      statusCode := Some 200;
                      responseBody := Some html_body |}).
Proof.
  split.
  - apply (getAccessToken_rejects_bad_response parse_flat_object stringify_flat
             test_instance test_shop test_code 400 [str "e"; str "rr"] []).
    discriminate.
  - apply (getAccessToken_rejects_bad_response parse_flat_object stringify_flat
             test_instance test_shop test_code 200 [html_body] []);
      reflexivity.
Defined.

Lemma getAccessToken_resolves_payload_witness :
  promise (run parse_flat_object
               (getAccessToken stringify_flat test_instance test_shop test_code)
               (EvResponse 200 :: map EvData [token_body] ++ [EvEnd]))
  = Some (Fulfilled token_payload).
Proof.
  apply (getAccessToken_resolves_payload parse_flat_object stringify_flat
           test_instance test_shop test_code [token_body] [] token_payload).
  reflexivity.
Defined.

Lemma getAccessToken_timeout_witness :
  let x := run parse_flat_object
               (getAccessToken stringify_flat test_instance test_shop test_code)
               ([EvResponse 200; EvData (str "{")] ++ EvTimeout :: [EvData (str "}"); EvEnd]) in
  aborted x = true
  /\ exists e : jserror,
       promise x = Some (Rejected e)
       /\ message e = str "Request timed out"
       /\ statusCode e = None /\ responseBody e = None.
Proof.
  apply (getAccessToken_timeout parse_flat_object stringify_flat
           test_instance test_shop test_code
           [EvResponse 200; EvData (str "{")] [EvData (str "}"); EvEnd]).
  reflexivity.
Defined.

(* ------------------------------------------------------------------ *)
(** ** The constructor *)

(** C9, as stated, fails: with the three required options present, one
    of them the empty string, the constructor throws. *)
Lemma constructor_rejects_empty_credential :
  opt_apiKey empty_apiKey_options = Some []
  /\ opt_sharedSecret empty_apiKey_options = Some (str "foo")
  /\ opt_redirectUri empty_apiKey_options = Some (str "bar")
  /\ constructor (Some empty_apiKey_options)
     = Throw (mkError (str "Missing or invalid options")).
Proof. vm_compute. repeat split. Qed.

(** C9 (amended): the constructor throws, synchronously, when it is called
    without options and when one of [apiKey], [sharedSecret], [redirectUri]
    is missing or is the empty string; when the three are non-empty
    strings it returns the instance that holds them, with [scopes],
    [timeout] and [accessMode] as given in the options and otherwise
    ['read_content'], [60000] and the empty string. *)
Theorem constructor_required_options (arg : option options) :
  ((arg = None
    \/ exists o, arg = Some o
         /\ (Spec.lacking (opt_apiKey o) \/ Spec.lacking (opt_sharedSecret o)
             \/ Spec.lacking (opt_redirectUri o)))
   -> constructor arg = Throw (mkError (str "Missing or invalid options")))
  /\ (forall o secret uri key,
        arg = Some o ->
        opt_sharedSecret o = Some secret -> secret <> [] ->
        opt_redirectUri o = Some uri -> uri <> [] ->
        opt_apiKey o = Some key -> key <> [] ->
        constructor arg =
        Return {| accessMode := Spec.otherwise (opt_accessMode o) [];
                  scopes := Spec.otherwise (opt_scopes o) (VStr (str "read_content"));
                  timeout := Spec.otherwise (opt_timeout o) 60000;
                  sharedSecret := secret;
                  redirectUri := uri;
                  apiKey := key;
                  agent := opt_agent o |}).
Proof.
  split.
  - intros [->|(o & -> & H)]; [reflexivity|].
    unfold constructor, Spec.lacking in *.
    destruct (opt_sharedSecret o) as [[|? ?]|], (opt_redirectUri o) as [[|? ?]|],
      (opt_apiKey o) as [[|? ?]|]; try reflexivity;
      exfalso; intuition discriminate.
  - intros o secret uri key -> Hs Hs' Hu Hu' Hk Hk'.
    unfold constructor. rewrite Hs, Hu, Hk.
    destruct secret; [contradiction|]. destruct uri; [contradiction|].
    destruct key; [contradiction|]. reflexivity.
Qed.

Lemma constructor_required_options_witness :
  constructor None = Throw (mkError (str "Missing or invalid options"))
  /\ constructor (Some test_options) = Return test_instance.
Proof.
  split.
  - apply (proj1 (constructor_required_options None)). left; reflexivity.
  - apply (proj2 (constructor_required_options (Some test_options))
             test_options (str "foo") (str "bar") (str "baz"));
      try reflexivity; discriminate.
Defined.

(* ------------------------------------------------------------------ *)
(** ** The authorization URL *)

Lemma endsWith_app (p suffix : jsstring) : endsWith (p ++ suffix) suffix = true.
Proof.
  unfold endsWith. rewrite length_app.
  apply andb_true_iff; split; [apply Nat.leb_le; lia|].
  replace (length p + length suffix - length suffix)%nat with (length p) by lia.
  rewrite skipn_app, skipn_all, Nat.sub_diag. simpl. apply streq_refl.
Qed.

Lemma endsWith_inv (s suffix : jsstring) :
  endsWith s suffix = true -> exists p, s = p ++ suffix.
Proof.
  unfold endsWith. intros H. apply andb_true_iff in H; destruct H as [_ H].
  apply streq_eq in H.
  remember (length s - length suffix)%nat as n.
  exists (firstn n s). rewrite <- H. symmetry. apply firstn_skipn.
Qed.

(** C7: the host of the authorization URL is the shop itself when the shop
    ends with [.myshopify.com], and the shop followed by [.myshopify.com]
    otherwise.  It always ends with the suffix, giving it back as the shop
    changes nothing, and [qux] and [qux.myshopify.com] lead to the same
    host and, with the same other arguments, to the same URL. *)
Theorem generateAuthUrl_host
  (url_format : urlObject -> jsstring) (this : instance) (randomBytes : buffer)
  (shop : jsstring) (scopes0 nonce accessMode0 : value) :
  let host (shop : jsstring) :=
    hostname (authUrlObject this randomBytes shop scopes0 nonce accessMode0) in
  ((exists name, shop = name ++ myshopify_com) -> host shop = shop)
  /\ ((forall name, shop <> name ++ myshopify_com) -> host shop = shop ++ myshopify_com)
  /\ endsWith (host shop) myshopify_com = true
  /\ host (host shop) = host shop
  /\ host (str "qux") = str "qux.myshopify.com"
  /\ host (str "qux.myshopify.com") = str "qux.myshopify.com"
  /\ generateAuthUrl url_format this randomBytes (str "qux.myshopify.com")
       scopes0 nonce accessMode0
     = generateAuthUrl url_format this randomBytes (str "qux")
       scopes0 nonce accessMode0.
Proof.
  intros host.
  assert (forall s, endsWith s myshopify_com = true -> host s = s) as Hverbatim.
  { intros s H. unfold host, authUrlObject; cbn [hostname]. now rewrite H. }
  assert (forall s, endsWith s myshopify_com = false -> host s = s ++ myshopify_com)
    as Happend.
  { intros s H. unfold host, authUrlObject; cbn [hostname]. now rewrite H. }
  assert (endsWith (host shop) myshopify_com = true) as Hends.
  { destruct (endsWith shop myshopify_com) eqn:E.
    - now rewrite Hverbatim.
    - rewrite Happend by assumption. apply endsWith_app. }
  split; [intros (name & ->); apply Hverbatim, endsWith_app|].
  split.
  { intros Hno. apply Happend.
    destruct (endsWith shop myshopify_com) eqn:E; [|reflexivity].
    destruct (endsWith_inv _ _ E) as (name & Hname). now destruct (Hno name). }
  split; [exact Hends|].
  split; [now apply Hverbatim|].
  split; [reflexivity|]. split; reflexivity.
Qed.

Lemma generateAuthUrl_host_witness :
  hostname (authUrlObject test_instance [] (str "foo.myshopify.com")
                          VUndefined VUndefined VUndefined)
  = str "foo.myshopify.com"
  /\ hostname (authUrlObject test_instance [] (str "foo.example.com")
                          VUndefined VUndefined VUndefined)
  = str "foo.example.com.myshopify.com".
Proof.
  split.
  - destruct (generateAuthUrl_host (fun u => hostname u) test_instance []
                (str "foo.myshopify.com") VUndefined VUndefined VUndefined)
      as (Hverbatim & _).
    apply Hverbatim. exists (str "foo"). reflexivity.
  - destruct (generateAuthUrl_host (fun u => hostname u) test_instance []
                (str "foo.example.com") VUndefined VUndefined VUndefined)
      as (_ & Happend & _).
    apply Happend. intros name H.
    apply (f_equal (fun s => endsWith s myshopify_com)) in H.
    rewrite endsWith_app in H. discriminate H.
Defined.

(* ------------------------------------------------------------------ *)
(** ** Further properties of the verifier *)

(** X1: on two buffers of the same length [timingSafeEqual] is equality. *)
Theorem timingSafeEqual_equal_lengths (a b : buffer) :
  length a = length b ->
  (timingSafeEqual a b = true <-> a = b)
  /\ (timingSafeEqual a b = false <-> a <> b).
Proof.
  intros Hlen.
  pose proof (timingSafeEqual_same_length a b Hlen) as H.
  split; [exact H|].
  destruct (timingSafeEqual a b); split; intros H'; try discriminate; try reflexivity.
  - exfalso. apply H'. now apply H.
  - intros E. apply H in E. discriminate.
Qed.

Lemma timingSafeEqual_equal_lengths_witness :
  timingSafeEqual [1; 2; 3] [1; 2; 4] = false <-> [1; 2; 3] <> [1; 2; 4].
Proof.
  apply (timingSafeEqual_equal_lengths [1; 2; 3] [1; 2; 4]). reflexivity.
Defined.

(** X2: [timingSafeEqual a b] looks at the indices of [a] only and reads
    a byte [b] does not have as zero: it holds exactly when [b] agrees
    with [a] there.  So bytes of [b] past the length of [a] are never
    looked at, and bytes of [a] past the length of [b] must be zero. *)
Theorem timingSafeEqual_reads_missing_as_zero (a b t : buffer) :
  (timingSafeEqual a b = true
   <-> forall i, (i < length a)%nat -> nth i a 0 = nth i b 0)
  /\ timingSafeEqual a (a ++ t) = true
  /\ (timingSafeEqual (b ++ t) b = true <-> Forall (fun x => x = 0) t).
Proof.
  split; [apply timingSafeEqual_spec|]. split.
  - apply timingSafeEqual_spec. intros i Hi. now rewrite app_nth1.
  - rewrite timingSafeEqual_spec, length_app. split.
    + intros H. apply Forall_forall. intros x Hx.
      destruct (In_nth t x 0 Hx) as (j & Hj & <-).
      specialize (H (length b + j)%nat ltac:(lia)).
      rewrite app_nth2 in H by lia.
      replace (length b + j - length b)%nat with j in H by lia.
      rewrite H. apply nth_overflow. lia.
    + intros H i Hi. destruct (Nat.lt_ge_cases i (length b)) as [Hlt|Hge].
      * now rewrite app_nth1.
      * rewrite app_nth2 by lia. rewrite (nth_overflow b) by lia.
        rewrite Forall_forall in H. apply H. apply nth_In. lia.
Qed.

(** X3: [verifyHmac] returns [false], and does not throw, when the query
    has no [hmac], when its [hmac] is not a string, and when it is a
    string whose UTF-8 form is not 64 bytes long. *)
Theorem verifyHmac_rejects_malformed_hmac (this : instance) (query : object) :
  (~ In (str "hmac") (Object_keys query) -> verifyHmac this query = Return false)
  /\ ((forall hmac, get query (str "hmac") <> VStr hmac) ->
      verifyHmac this query = Return false)
  /\ (forall hmac, get query (str "hmac") = VStr hmac ->
      Buffer_byteLength hmac <> 64 -> verifyHmac this query = Return false).
Proof.
  repeat split.
  - intros Hnot. apply verifyHmac_guard. intros hmac H.
    rewrite get_not_In in H by assumption. discriminate.
  - intros Hnot. apply verifyHmac_guard. intros hmac H. now destruct (Hnot hmac).
  - intros hmac Hget Hlen. apply verifyHmac_guard. intros h H.
    rewrite Hget in H. injection H as <-. exact Hlen.
Qed.

Lemma verifyHmac_rejects_malformed_hmac_witness :
  verifyHmac test_instance [(str "shop", VStr test_shop)] = Return false
  /\ verifyHmac test_instance [(str "hmac", VArr [VStr authentic_hmac])] = Return false
  /\ verifyHmac test_instance [(str "hmac", VStr (str "3d9b9a79"))] = Return false.
Proof.
  split; [|split].
  - apply (proj1 (verifyHmac_rejects_malformed_hmac test_instance
                    [(str "shop", VStr test_shop)])).
    simpl. intros [H|[]]. discriminate H.
  - apply (proj1 (proj2 (verifyHmac_rejects_malformed_hmac test_instance
                           [(str "hmac", VArr [VStr authentic_hmac])]))).
    intros hmac H. discriminate H.
  - apply (proj2 (proj2 (verifyHmac_rejects_malformed_hmac test_instance
                           [(str "hmac", VStr (str "3d9b9a79"))]))
             (str "3d9b9a79")); [reflexivity|discriminate].
Defined.

(** X4: [verifyHmac] never throws: whatever the keys and the values, lone
    surrogates included, [encodeURIComponent] is only ever handed [%], [&]
    or [=], and the result is [true] or [false]. *)
Theorem verifyHmac_never_throws (this : instance) (query : object) :
  (exists ps, pairs query = Return ps)
  /\ (verifyHmac this query = Return true \/ verifyHmac this query = Return false).
Proof.
  split; [eexists; apply pairs_canonical|].
  destruct (verifyHmac_returns this query) as ([|] & ->); auto.
Qed.



(** X6: the [signature] property and the value of [hmac] are no part of
    what is signed: a [signature] added to a query changes neither the
    pairs nor the verdict, and an [hmac] added to it does not change the
    pairs. *)
Theorem verifyHmac_ignores_signature (this : instance) (query : object) (v : value) :
  pairs ((str "signature", v) :: query) = pairs query
  /\ verifyHmac this ((str "signature", v) :: query) = verifyHmac this query
  /\ pairs ((str "hmac", v) :: query) = pairs query.
Proof.
  assert (forall name, (name = str "signature" \/ name = str "hmac") ->
                       pairs ((name, v) :: query) = pairs query) as Hpairs.
  { intros name Hname. rewrite !pairs_canonical. do 2 f_equal.
    unfold Spec.signed_pairs.
    assert (Spec.signed_keys ((name, v) :: query) = Spec.signed_keys query) as ->
      by (unfold Spec.signed_keys; destruct Hname as [-> | ->]; reflexivity).
    apply map_ext_in. intros k Hk. cbn [get].
    destruct (streq name k) eqn:E; [|reflexivity].
    apply streq_eq in E; subst k. exfalso.
    unfold Spec.signed_keys in Hk. apply filter_In in Hk. destruct Hk as [_ Hk].
    destruct Hname as [-> | ->]; discriminate Hk. }
  split; [apply Hpairs; now left|].
  split; [|apply Hpairs; now right].
  unfold verifyHmac. rewrite (Hpairs (str "signature")) by now left. reflexivity.
Qed.

(** X7: the two encoders never throw.  [encodeValue] replaces every [%] by
    [%25] and every [&] by [%26], [encodeKey] moreover every [=] by
    [%3D], and both leave any other code unit in place; a string without
    these characters comes back as it is. *)
Theorem encoders_escape_as_documented (input : jsstring) :
  encodeValue input = Return (Spec.escape_value input)
  /\ encodeKey input = Return (Spec.escape_key input)
  /\ (Forall (fun c => c <> 37 /\ c <> 38) input -> encodeValue input = Return input)
  /\ (Forall (fun c => c <> 37 /\ c <> 38 /\ c <> 61) input ->
      encodeKey input = Return input).
Proof.
  split; [apply encodeValue_escape|]. split; [apply encodeKey_escape|]. split.
  - intros H. rewrite encodeValue_escape. f_equal.
    induction H as [|c t (H1 & H2) _ IH]; [reflexivity|].
    cbn [Spec.escape_value flat_map]. fold (Spec.escape_value t). rewrite IH.
    apply Z.eqb_neq in H1, H2. now rewrite H1, H2.
  - intros H. rewrite encodeKey_escape. f_equal.
    induction H as [|c t (H1 & H2 & H3) _ IH]; [reflexivity|].
    cbn [Spec.escape_key flat_map]. fold (Spec.escape_key t). rewrite IH.
    apply Z.eqb_neq in H1, H2, H3. now rewrite H1, H2, H3.
Qed.

Lemma encoders_escape_as_documented_witness :
  encodeValue (str "a=b") = Return (str "a=b")
  /\ encodeKey (str "shop") = Return (str "shop").
Proof.
  split.
  - apply (proj1 (proj2 (proj2 (encoders_escape_as_documented (str "a=b"))))).
    repeat constructor; discriminate.
  - apply (proj2 (proj2 (proj2 (encoders_escape_as_documented (str "shop"))))).
    repeat constructor; discriminate.
Defined.

(** *** The signed string determines what was signed *)

Lemma escape_key_cons (c : Z) (t : jsstring) :
  Spec.escape_key (c :: t)
  = (if c =? 37 then [37; 50; 53] else if c =? 38 then [37; 50; 54]
     else if c =? 61 then [37; 51; 68] else [c]) ++ Spec.escape_key t.
Proof. reflexivity. Qed.

Lemma escape_value_cons (c : Z) (t : jsstring) :
  Spec.escape_value (c :: t)
  = (if c =? 37 then [37; 50; 53] else if c =? 38 then [37; 50; 54] else [c])
      ++ Spec.escape_value t.
Proof. reflexivity. Qed.

Ltac eqb_cases :=
  repeat match goal with
         | |- context [?x =? ?y] => destruct (Z.eqb_spec x y); subst
         end.

(** An escaped key ends at the first [=]. *)
Lemma escape_key_split (k1 k2 r1 r2 : jsstring) :
  Spec.escape_key k1 ++ 61 :: r1 = Spec.escape_key k2 ++ 61 :: r2 ->
  k1 = k2 /\ r1 = r2.
Proof.
  revert k2; induction k1 as [|c1 k1 IH]; intros [|c2 k2].
  - simpl. intros H. injection H as H. auto.
  - rewrite escape_key_cons. eqb_cases; simpl; intros H; try discriminate H.
    injection H as H _. congruence.
  - rewrite escape_key_cons. eqb_cases; simpl; intros H; try discriminate H.
    injection H as H _. congruence.
  - rewrite !escape_key_cons.
    eqb_cases; simpl; intros H; try discriminate H;
      injection H; intros; subst; try congruence;
      match goal with
      | Ht : Spec.escape_key _ ++ _ = Spec.escape_key _ ++ _ |- _ =>
          destruct (IH _ Ht) as (-> & ->); auto
      end.
Qed.

Lemma escape_value_inj (v1 v2 : jsstring) :
  Spec.escape_value v1 = Spec.escape_value v2 -> v1 = v2.
Proof.
  revert v2; induction v1 as [|c1 v1 IH]; intros [|c2 v2].
  - reflexivity.
  - rewrite escape_value_cons. eqb_cases; simpl; discriminate.
  - rewrite escape_value_cons. eqb_cases; simpl; discriminate.
  - rewrite !escape_value_cons.
    eqb_cases; simpl; intros H; try discriminate H;
      injection H; intros; subst; try congruence;
      match goal with
      | Ht : Spec.escape_value _ = Spec.escape_value _ |- _ =>
          rewrite (IH _ Ht); auto
      end.
Qed.

Lemma escape_key_no_amp (k : jsstring) : Forall (fun c => c <> 38) (Spec.escape_key k).
Proof.
  induction k as [|c k IH]; [constructor|].
  rewrite escape_key_cons. apply Forall_app. split; [|exact IH].
  eqb_cases; repeat constructor; try discriminate; assumption.
Qed.

Lemma escape_value_no_amp (v : jsstring) : Forall (fun c => c <> 38) (Spec.escape_value v).
Proof.
  induction v as [|c v IH]; [constructor|].
  rewrite escape_value_cons. apply Forall_app. split; [|exact IH].
  eqb_cases; repeat constructor; try discriminate; assumption.
Qed.

(** A string without [&] ends at the first [&] or at the end. *)
Lemma amp_free_split (x y r1 r2 : jsstring) :
  Forall (fun c => c <> 38) x -> Forall (fun c => c <> 38) y ->
  (r1 = [] \/ exists t, r1 = 38 :: t) -> (r2 = [] \/ exists t, r2 = 38 :: t) ->
  x ++ r1 = y ++ r2 -> x = y /\ r1 = r2.
Proof.
  intros Hx; revert y; induction Hx as [|c x Hc Hx IH]; intros y Hy H1 H2 H.
  - destruct Hy as [|d y Hd Hy]; simpl in H; [auto|].
    destruct H1 as [->|(t & ->)]; [discriminate H|].
    injection H as H _. congruence.
  - destruct Hy as [|d y Hd Hy]; simpl in H.
    + destruct H2 as [->|(t & ->)]; [discriminate H|].
      injection H as H _. congruence.
    + injection H as -> H.
      destruct (IH y Hy H1 H2 H) as (-> & ->). auto.
Qed.

Lemma join_amp_inj (l1 l2 : list jsstring) :
  Forall (fun p => p <> [] /\ Forall (fun c => c <> 38) p) l1 ->
  Forall (fun p => p <> [] /\ Forall (fun c => c <> 38) p) l2 ->
  join_by (fun p => p) (str "&") l1 = join_by (fun p => p) (str "&") l2 ->
  l1 = l2.
Proof.
  intros H1; revert l2; induction H1 as [|x t (Hx & Hxa) Ht IH]; intros l2 H2 H.
  - destruct H2 as [|y u (Hy & Hya) Hu]; [reflexivity|].
    exfalso. simpl in H. destruct u; [now apply Hy|].
    destruct y; [now apply Hy|discriminate H].
  - destruct H2 as [|y u (Hy & Hya) Hu].
    + exfalso. simpl in H. destruct t; [now apply Hx|].
      destruct x; [now apply Hx|discriminate H].
    + assert (forall z (w : list jsstring),
                join_by (fun p => p) (str "&") (z :: w)
                = z ++ match w with
                       | [] => []
                       | _ :: _ => 38 :: join_by (fun p => p) (str "&") w
                       end) as Hjoin
        by (intros z [|? ?]; simpl; [now rewrite app_nil_r|reflexivity]).
      rewrite !Hjoin in H.
      apply amp_free_split in H; try assumption;
        try (destruct t; eauto); try (destruct u; eauto).
      all: destruct H as (-> & H); try discriminate H; try reflexivity.
      injection H as H. f_equal. apply IH; assumption.
Qed.

Lemma signed_pairs_entries (query : object) :
  Spec.signed_pairs query
  = map (fun e => Spec.escape_key (fst e) ++ str "=" ++ Spec.escape_value (snd e))
        (signed_entries query).
Proof. unfold Spec.signed_pairs, signed_entries. now rewrite map_map. Qed.

Lemma encoded_pair_inj (e1 e2 : jsstring * jsstring) :
  Spec.escape_key (fst e1) ++ str "=" ++ Spec.escape_value (snd e1)
  = Spec.escape_key (fst e2) ++ str "=" ++ Spec.escape_value (snd e2) ->
  e1 = e2.
Proof.
  destruct e1 as [k1 v1], e2 as [k2 v2]; simpl. intros H.
  apply escape_key_split in H. destruct H as (-> & H).
  now rewrite (escape_value_inj _ _ H).
Qed.

Lemma map_inj {A B : Type} (f : A -> B) (l1 l2 : list A) :
  (forall a b, f a = f b -> a = b) -> map f l1 = map f l2 -> l1 = l2.
Proof.
  intros Hf; revert l2; induction l1 as [|a l1 IH]; intros [|b l2] H;
    try discriminate H; [reflexivity|].
  injection H as Hab H. f_equal; auto.
Qed.

Lemma signed_pairs_wellformed (query : object) :
  Forall (fun p => p <> [] /\ Forall (fun c => c <> 38) p) (Spec.signed_pairs query).
Proof.
  unfold Spec.signed_pairs. apply Forall_forall. intros p Hp.
  apply in_map_iff in Hp. destruct Hp as (k & <- & _). split.
  - destruct (Spec.escape_key k); discriminate.
  - apply Forall_app; split; [apply escape_key_no_amp|].
    apply Forall_app; split; [repeat constructor; discriminate|apply escape_value_no_amp].
Qed.

(** X8: the string [verifyHmac] signs determines what was signed.  Two
    queries give the same string exactly when they have the same keys
    other than [hmac] and [signature], each with the same serialized
    value: the escaping of [%], [&] and [=] leaves no second reading. *)
Theorem signed_string_determines_entries
  (q1 q2 : object) (ps1 ps2 : list jsstring) :
  pairs q1 = Return ps1 -> pairs q2 = Return ps2 ->
  (join_by (fun p => p) (str "&") ps1 = join_by (fun p => p) (str "&") ps2
   <-> Permutation (signed_entries q1) (signed_entries q2)).
Proof.
  rewrite !pairs_canonical. intros H1 H2.
  injection H1 as <-. injection H2 as <-. split.
  - intros H. apply join_amp_inj in H.
    + assert (Permutation (Spec.signed_pairs q1) (Spec.signed_pairs q2)) as Hperm.
      { rewrite <- (sort_with_perm str_ltb (Spec.signed_pairs q1)).
        rewrite <- (sort_with_perm str_ltb (Spec.signed_pairs q2)).
        fold sort. now rewrite H. }
      rewrite (signed_pairs_entries q2) in Hperm.
      apply Permutation_map_inv in Hperm. destruct Hperm as (l3 & Heq & Hperm).
      rewrite signed_pairs_entries in Heq.
      apply map_inj in Heq; [|exact encoded_pair_inj]. subst l3.
      now symmetry.
    + eapply Permutation_Forall;
        [symmetry; apply sort_with_perm|apply signed_pairs_wellformed].
    + eapply Permutation_Forall;
        [symmetry; apply sort_with_perm|apply signed_pairs_wellformed].
  - intros H. f_equal. apply sort_rearranged.
    rewrite !signed_pairs_entries. now apply Permutation_map.
Qed.

Lemma signed_string_determines_entries_witness :
  Permutation
    (signed_entries [(str "shop", VStr test_shop); (str "code", VNum 7)])
    (signed_entries [(str "code", VStr (str "7")); (str "hmac", VNull);
                     (str "shop", VStr test_shop)]).
Proof.
  apply (proj1 (signed_string_determines_entries
                  [(str "shop", VStr test_shop); (str "code", VNum 7)]
                  [(str "code", VStr (str "7")); (str "hmac", VNull);
                   (str "shop", VStr test_shop)]
                  _ _ (pairs_canonical _) (pairs_canonical _))).
  reflexivity.
Defined.

(* ------------------------------------------------------------------ *)
(** ** The nonce *)

Lemma unhex_hex_digit (n : Z) : 0 <= n < 16 -> unhex (hex_digit false n) = Some n.
Proof.
  intros H.
  assert (In n [0; 1; 2; 3; 4; 5; 6; 7; 8; 9; 10; 11; 12; 13; 14; 15]) as Hin
    by (simpl; lia).
  simpl in Hin. repeat destruct Hin as [<-|Hin]; try reflexivity. contradiction.
Qed.

Lemma byte_nibbles (x : Z) :
  is_byte x ->
  0 <= Z.shiftr x 4 < 16 /\ 0 <= Z.land x 15 < 16
  /\ 16 * Z.shiftr x 4 + Z.land x 15 = x.
Proof.
  unfold is_byte. intros H.
  rewrite Z.shiftr_div_pow2 by lia.
  change 15 with (Z.ones 4). rewrite Z.land_ones by lia.
  change (2 ^ 4) with 16.
  pose proof (Z.div_mod x 16 ltac:(lia)).
  pose proof (Z.mod_pos_bound x 16 ltac:(lia)).
  assert (0 <= x / 16 < 16)
    by (split; [apply Z.div_pos; lia|apply Z.div_lt_upper_bound; lia]).
  lia.
Qed.

Lemma Buffer_from_hex_toString (b : buffer) :
  Forall is_byte b -> Buffer_from_hex (Buffer_toString_hex b) = b.
Proof.
  induction 1 as [|x b Hx _ IH]; [reflexivity|].
  destruct (byte_nibbles x Hx) as (Hhi & Hlo & Hsum).
  cbn [Buffer_toString_hex flat_map app Buffer_from_hex].
  rewrite !unhex_hex_digit by assumption.
  fold (Buffer_toString_hex b). now rewrite IH, Hsum.
Qed.

Lemma hex_digit_lower (n : Z) :
  0 <= n < 16 ->
  48 <= hex_digit false n <= 57 \/ 97 <= hex_digit false n <= 102.
Proof.
  intros H. unfold hex_digit. destruct (n <? 10) eqn:E.
  - apply Z.ltb_lt in E. lia.
  - apply Z.ltb_ge in E. lia.
Qed.

(** X9: [generateNonce] prints every random byte as two lower-case
    hexadecimal digits, 32 for the 16 bytes it draws, and the bytes can be
    read back from the nonce: two draws give the same nonce only if they
    are the same draw. *)
Theorem generateNonce_hex (randomBytes : buffer) :
  Forall is_byte randomBytes ->
  length (generateNonce randomBytes) = (2 * length randomBytes)%nat
  /\ Forall (fun c => 48 <= c <= 57 \/ 97 <= c <= 102) (generateNonce randomBytes)
  /\ Buffer_from_hex (generateNonce randomBytes) = randomBytes
  /\ forall other, Forall is_byte other ->
       generateNonce other = generateNonce randomBytes -> other = randomBytes.
Proof.
  intros Hb. unfold generateNonce. repeat split.
  - clear Hb. induction randomBytes as [|x b IH]; [reflexivity|].
    cbn [Buffer_toString_hex flat_map app length].
    fold (Buffer_toString_hex b). rewrite IH. lia.
  - induction Hb as [|x b Hx _ IH]; [constructor|].
    destruct (byte_nibbles x Hx) as (Hhi & Hlo & _).
    cbn [Buffer_toString_hex flat_map app].
    constructor; [now apply hex_digit_lower|].
    constructor; [now apply hex_digit_lower|]. exact IH.
  - now apply Buffer_from_hex_toString.
  - intros other Ho H.
    rewrite <- (Buffer_from_hex_toString other Ho), H.
    now apply Buffer_from_hex_toString.
Qed.

Lemma generateNonce_hex_witness :
  length (generateNonce (repeat 171 16)) = 32%nat
  /\ Buffer_from_hex (generateNonce (repeat 171 16)) = repeat 171 16.
Proof.
  destruct (generateNonce_hex (repeat 171 16)) as (Hlen & _ & Hback & _).
  - repeat constructor; discriminate.
  - split; [exact Hlen|exact Hback].
Defined.

(* ------------------------------------------------------------------ *)
(** ** Signing and verifying *)

Lemma land_255_byte (x : Z) : is_byte (Z.land x 255).
Proof.
  unfold is_byte. change 255 with (Z.ones 8) at 1 2.
  rewrite Z.land_ones by lia.
  pose proof (Z.mod_pos_bound x (2 ^ 8) ltac:(lia)).
  change (2 ^ 8) with 256 in *. change (Z.ones 8) with 255. lia.
Qed.

Lemma sha256_bytes (msg : buffer) : Forall is_byte (Crypto.sha256 msg).
Proof.
  unfold Crypto.sha256, Crypto.bytes_of_word.
  repeat (apply Forall_app; split);
    repeat (constructor; [apply land_255_byte|]); constructor.
Qed.

Lemma Buffer_toString_hex_length (b : buffer) :
  length (Buffer_toString_hex b) = (2 * length b)%nat.
Proof.
  induction b as [|x b IH]; [reflexivity|].
  cbn [Buffer_toString_hex flat_map app length].
  fold (Buffer_toString_hex b). rewrite IH. lia.
Qed.

Lemma Buffer_toString_hex_digits (b : buffer) :
  Forall is_byte b -> forallb is_hex_digit (Buffer_toString_hex b) = true.
Proof.
  induction 1 as [|x b Hx _ IH]; [reflexivity|].
  destruct (byte_nibbles x Hx) as (Hhi & Hlo & _).
  cbn [Buffer_toString_hex flat_map app forallb].
  fold (Buffer_toString_hex b). rewrite IH.
  unfold is_hex_digit. now rewrite !unhex_hex_digit by assumption.
Qed.

Lemma expected_hmac_wellformed (this : instance) (query : object) :
  length (expected_hmac this query) = 64%nat
  /\ forallb is_hex_digit (expected_hmac this query) = true
  /\ Buffer_from_hex (expected_hmac this query)
     = Crypto.hmac_sha256
         (utf8 (sharedSecret this))
         (utf8 (join_by (fun p => p) (str "&") (sort (Spec.signed_pairs query)))).
Proof.
  unfold expected_hmac.
  set (digest := Crypto.hmac_sha256 _ _).
  assert (Forall is_byte digest) as Hb by apply sha256_bytes.
  assert (length digest = 32%nat) as Hl by apply hmac_sha256_length.
  clearbody digest. split; [|split].
  - now rewrite Buffer_toString_hex_length, Hl.
  - now apply Buffer_toString_hex_digits.
  - now apply Buffer_from_hex_toString.
Qed.

(** X10: signing and verifying fit together.  For every query, the
    query sent with the digest of its own pairs under the shared secret, in
    hexadecimal, as [hmac] is accepted; and whatever other string of 64
    hexadecimal digits is sent as [hmac] is accepted exactly when its
    digits decode to that digest. *)
Theorem verifyHmac_accepts_own_digest (this : instance) (query : object) :
  verifyHmac this ((str "hmac", VStr (expected_hmac this query)) :: query)
  = Return true
  /\ forall hmac,
       length hmac = 64%nat -> forallb is_hex_digit hmac = true ->
       (verifyHmac this ((str "hmac", VStr hmac) :: query) = Return true
        <-> Buffer_from_hex hmac = Buffer_from_hex (expected_hmac this query)).
Proof.
  assert (forall hmac,
             length hmac = 64%nat -> forallb is_hex_digit hmac = true ->
             verifyHmac this ((str "hmac", VStr hmac) :: query)
             = Return (timingSafeEqual (Buffer_from_hex (expected_hmac this query))
                                       (Buffer_from_hex hmac))) as Hrun.
  { intros hmac Hlen Hhex.
    destruct (expected_hmac_wellformed this query) as (_ & _ & ->).
    unfold verifyHmac.
    destruct (verifyHmac_ignores_signature this query (VStr hmac)) as (_ & _ & ->).
    rewrite pairs_canonical. cbn [bind get]. cbn [streq str].
    change (streq (str "hmac") (str "hmac")) with true. cbv iota.
    unfold Buffer_byteLength. rewrite utf8_hex, Hlen by assumption. reflexivity. }
  destruct (expected_hmac_wellformed this query) as (Hlen & Hhex & _).
  pose proof (Buffer_from_hex_length 32 _ Hlen Hhex) as Hd.
  split.
  - rewrite Hrun by assumption.
    f_equal. now apply timingSafeEqual_same_length.
  - intros hmac Hl Hh. rewrite Hrun by assumption.
    pose proof (Buffer_from_hex_length 32 _ Hl Hh) as Hs.
    set (d := Buffer_from_hex (expected_hmac this query)) in *.
    set (s := Buffer_from_hex hmac) in *.
    clearbody d s.
    assert (timingSafeEqual d s = true <-> d = s) as Heq
      by (apply timingSafeEqual_same_length; congruence).
    destruct (timingSafeEqual d s); split; intros H.
    + symmetry. now apply Heq.
    + reflexivity.
    + discriminate H.
    + symmetry in H. apply Heq in H. discriminate H.
Qed.

Lemma verifyHmac_accepts_own_digest_witness :
  verifyHmac test_instance
    ((str "hmac", VStr (str "3D9B9A7918AC20DFD03B6A0AF54A58F0A47980145AE81A37F41597A1E34B528D"))
       :: tl authentic_query)
  = Return true.
Proof.
  apply (proj2 (verifyHmac_accepts_own_digest test_instance (tl authentic_query))
           (str "3D9B9A7918AC20DFD03B6A0AF54A58F0A47980145AE81A37F41597A1E34B528D"));
    vm_compute; reflexivity.
Defined.

(* ------------------------------------------------------------------ *)
(** ** Further properties of the authorization URL *)

(** X11: an argument of [generateAuthUrl] that is left out or falsy (the
    empty string, [null], [0]) stands for the instance's default: the
    instance's scopes, a fresh nonce, the instance's access mode.  So the
    call with the shop alone is the call with these three spelled out, and
    a falsy argument cannot switch off an access mode the instance has. *)
Theorem generateAuthUrl_defaults
  (url_format : urlObject -> jsstring) (this : instance) (randomBytes : buffer)
  (shop : jsstring) (scopes0 nonce accessMode0 : value) :
  generateAuthUrl url_format this randomBytes shop VUndefined VUndefined VUndefined
  = generateAuthUrl url_format this randomBytes shop
      (scopes this) (VStr (generateNonce randomBytes)) (VStr (accessMode this))
  /\ (truthy scopes0 = false -> truthy nonce = false -> truthy accessMode0 = false ->
      generateAuthUrl url_format this randomBytes shop scopes0 nonce accessMode0
      = generateAuthUrl url_format this randomBytes shop
          VUndefined VUndefined VUndefined).
Proof.
  unfold generateAuthUrl, authUrlObject. split.
  - destruct (truthy (scopes this)), (accessMode this), (generateNonce randomBytes);
      reflexivity.
  - intros -> -> ->. reflexivity.
Qed.

Lemma generateAuthUrl_defaults_witness :
  generateAuthUrl url_format_plain test_instance (repeat 171 16) (str "qux")
    (VStr []) VNull (VNum 0)
  = generateAuthUrl url_format_plain test_instance (repeat 171 16) (str "qux")
      VUndefined VUndefined VUndefined.
Proof.
  apply (proj2 (generateAuthUrl_defaults url_format_plain test_instance
                  (repeat 171 16) (str "qux") (VStr []) VNull (VNum 0)));
    reflexivity.
Defined.

Lemma array_join_strings (sep : jsstring) (l : list jsstring) :
  array_join sep (map VStr l) = join_by (fun s => s) sep l.
Proof.
  unfold array_join.
  induction l as [|x t IH]; [reflexivity|].
  destruct t as [|y t]; [reflexivity|].
  cbn [map join_by] in *. now rewrite IH.
Qed.

(** X12: scopes given as an array of strings are the same as the strings
    joined by commas, as long as that string is not empty; and an array
    always replaces the instance's scopes, the empty array by the empty
    scope. *)
Theorem generateAuthUrl_scopes_array
  (url_format : urlObject -> jsstring) (this : instance) (randomBytes : buffer)
  (shop : jsstring) (l : list jsstring) (nonce accessMode0 : value) :
  (join_by (fun s => s) (str ",") l <> [] ->
   generateAuthUrl url_format this randomBytes shop (VArr (map VStr l)) nonce accessMode0
   = generateAuthUrl url_format this randomBytes shop
       (VStr (join_by (fun s => s) (str ",") l)) nonce accessMode0)
  /\ forall arr,
       get (query (authUrlObject this randomBytes shop (VArr arr) nonce accessMode0))
           (str "scope")
       = VStr (array_join (str ",") arr).
Proof.
  split.
  - intros Hne. unfold generateAuthUrl, authUrlObject. cbn [truthy].
    rewrite array_join_strings.
    destruct (join_by (fun s => s) (str ",") l); [contradiction|reflexivity].
  - intros arr. unfold authUrlObject. cbn [query truthy].
    destruct (truthy (if truthy accessMode0 then accessMode0 else VStr (accessMode this)));
      reflexivity.
Qed.

Lemma generateAuthUrl_scopes_array_witness :
  generateAuthUrl url_format_plain test_instance (repeat 171 16) (str "qux")
    (VArr (map VStr [str "read_products"; str "read_themes"])) VUndefined VUndefined
  = generateAuthUrl url_format_plain test_instance (repeat 171 16) (str "qux")
      (VStr (str "read_products,read_themes")) VUndefined VUndefined.
Proof.
  apply (proj1 (generateAuthUrl_scopes_array url_format_plain test_instance
                  (repeat 171 16) (str "qux")
                  [str "read_products"; str "read_themes"] VUndefined VUndefined)).
  discriminate.
Defined.

(** X13: the shared secret is no part of the authorization URL: two
    instances that differ in the shared secret only build the same URL.
    And nothing but the shared secret of the instance enters
    [verifyHmac]. *)
Theorem sharedSecret_confined
  (url_format : urlObject -> jsstring) (this other : instance) (randomBytes : buffer)
  (shop : jsstring) (scopes0 nonce accessMode0 : value) (secret : jsstring)
  (query : object) :
  generateAuthUrl url_format
    (Instance (accessMode this) (scopes this) (timeout this) secret
              (redirectUri this) (apiKey this) (agent this))
    randomBytes shop scopes0 nonce accessMode0
  = generateAuthUrl url_format this randomBytes shop scopes0 nonce accessMode0
  /\ (sharedSecret other = sharedSecret this ->
      verifyHmac other query = verifyHmac this query).
Proof.
  split; [reflexivity|].
  intros H. unfold verifyHmac. now rewrite H.
Qed.

Lemma sharedSecret_confined_witness :
  verifyHmac (Instance (str "per-user") VNull 1 (str "foo") [] [] (Some 7))
             authentic_query
  = verifyHmac test_instance authentic_query.
Proof.
  apply (proj2 (sharedSecret_confined url_format_plain test_instance
                  (Instance (str "per-user") VNull 1 (str "foo") [] [] (Some 7))
                  [] [] VUndefined VUndefined VUndefined [] authentic_query)).
  reflexivity.
Defined.

(* ------------------------------------------------------------------ *)
(** ** Further properties of the exchange *)

Section ExchangeMore.
Context {json : Type}.
Variable JSON_parse : jsstring -> option json.
Variable JSON_stringify : object -> jsstring.

Lemma dispatch_sent (x : exchange json) (ev : event) :
sent (dispatch JSON_parse x ev) = sent x.
Proof.
  destruct x as [rq tm pend ab resp pr].
  destruct ev as [|status|chunk| |err]; simpl;
    unfold on_end, on_error, on_timeout, on_response, on_data, reject, resolve,
      settle, clearTimeout; simpl;
    repeat match goal with
           | |- context [match ?b with _ => _ end] => destruct b; simpl
           | |- context [if ?b then _ else _] => destruct b; simpl
           end; reflexivity.
Qed.

(** X14: the request is fixed when [getAccessToken] is called and no
    event changes it: a [POST] of the JSON text of [client_secret],
    [client_id] and [code] to [/admin/oauth/access_token], with the
    agent of the instance and the length of the text in UTF-8 as
    [Content-Length].  The host is the [shop] argument as it is, so it is
    the host [generateAuthUrl] uses only for a shop that ends with
    [.myshopify.com]. *)
Theorem getAccessToken_request
  (this : instance) (shop code : jsstring) (evs : list event)
  (randomBytes : buffer) (scopes0 nonce accessMode0 : value) :
let x0 := getAccessToken (json := json) JSON_stringify this shop code in
sent (run JSON_parse x0 evs) = sent x0
/\ req_method (sent x0) = str "POST"
/\ req_path (sent x0) = str "/admin/oauth/access_token"
/\ req_hostname (sent x0) = shop
/\ req_agent (sent x0) = agent this
/\ req_data (sent x0)
   = JSON_stringify [ (str "client_secret", VStr (sharedSecret this));
                      (str "client_id", VStr (apiKey this));
                      (str "code", VStr code) ]
/\ get (req_headers (sent x0)) (str "Content-Length")
   = VNum (Z.of_nat (length (utf8 (req_data (sent x0)))))
/\ (req_hostname (sent x0)
    = hostname (authUrlObject this randomBytes shop scopes0 nonce accessMode0)
    <-> endsWith shop myshopify_com = true).
Proof.
  intros x0. split.
  { generalize x0. induction evs as [|ev evs' IH]; intros x; simpl; [reflexivity|].
    rewrite IH. apply dispatch_sent. }
  repeat split; try reflexivity.
  - unfold authUrlObject; cbn [hostname req_hostname sent x0 getAccessToken].
    destruct (endsWith shop myshopify_com); [reflexivity|].
    intros H. apply (f_equal (@length Z)) in H. rewrite length_app in H.
    unfold myshopify_com in H. simpl in H. lia.
  - intros H. unfold authUrlObject; cbn [hostname req_hostname sent x0 getAccessToken].
    now rewrite H.
Qed.

Lemma timer_kept (x : exchange json) (evs : list event) :
timer x = true -> pending_timeout x = false ->
timer (run JSON_parse x evs) = true /\ pending_timeout (run JSON_parse x evs) = false.
Proof.
  revert x; induction evs as [|ev evs IH]; intros x Htm Hpend; simpl; [auto|].
  apply IH;
    destruct x as [rq tm pend ab resp pr]; simpl in *; subst;
    destruct ev as [|status|chunk| |err]; simpl;
    unfold on_end, on_error, on_response, on_data, reject, resolve,
      settle, clearTimeout; simpl;
    repeat match goal with
           | |- context [match ?b with _ => _ end] => destruct b; simpl
           | |- context [if ?b then _ else _] => destruct b; simpl
           end; reflexivity.
Qed.

(** X15: a transport error that arrives while the exchange is in flight
    rejects the promise with that very error; the timeout is cleared, the
    request is not aborted, and nothing that arrives later, a timeout
    included, changes this. *)
Theorem getAccessToken_transport_error
  (this : instance) (shop code : jsstring) (evs late : list event) (err : jserror) :
forallb Spec.in_flight evs = true ->
let x := run JSON_parse (getAccessToken JSON_stringify this shop code)
             (evs ++ EvError err :: late) in
promise x = Some (Rejected err)
/\ pending_timeout x = false
/\ aborted x = false.
Proof.
  intros Hevs x.
  set (x0 := getAccessToken (json := json) JSON_stringify this shop code) in *.
  assert (timer_invariant x0) as H0 by (unfold x0; apply (getAccessToken_invariant JSON_parse)).
  assert (promise (run JSON_parse x0 evs) = None) as Hnone.
  { rewrite run_first_outcome by reflexivity.
    destruct (first_outcome_in_flight JSON_parse (response x0) evs [] Hevs) as (resp' & E).
    rewrite app_nil_r in E. now rewrite E. }
  assert (timer_invariant (run JSON_parse x0 evs)) as (Hp & Ht & _ & _)
    by now apply run_invariant.
  pose proof (proj1 Hp Hnone) as Hpend. pose proof (Ht Hpend) as Htm.
  set (y := dispatch JSON_parse (run JSON_parse x0 evs) (EvError err)).
  assert (promise y = Some (Rejected err) /\ timer y = true /\ pending_timeout y = false)
    as (Hy1 & Hy2 & Hy3).
  { subst y. destruct (run JSON_parse x0 evs) as [rq tm pend ab resp pr].
    simpl in *. subst. repeat split. }
  assert (x = run JSON_parse y late) as ->
    by (subst x y; rewrite run_app; reflexivity).
  split; [now apply run_settled|].
  destruct (timer_kept y late Hy2 Hy3) as (Htm' & Hpend').
  split; [assumption|].
  assert (timer_invariant (run JSON_parse y late)) as (_ & _ & _ & Hlive).
  { apply run_invariant. subst y. apply dispatch_invariant. now apply run_invariant. }
  now apply Hlive.
Qed.

(** X16: the timer and the promise go together.  In every state the
    exchange can reach, the timeout is pending exactly while the promise
    is, so no timer outlives the settlement; and the request is aborted
    exactly when the timeout callback has run, in which case the promise
    is rejected with the timeout error: after a completed response,
    whatever its status and body, the request is never aborted. *)
Theorem getAccessToken_timer_and_abort
  (this : instance) (shop code : jsstring) (evs : list event) :
let x := run JSON_parse (getAccessToken JSON_stringify this shop code) evs in
(promise x = None <-> pending_timeout x = true)
/\ (aborted x = true <-> timer x = false)
/\ (aborted x = true -> promise x = Some (Rejected Spec.timed_out))
/\ (forall payload, promise x = Some (Fulfilled payload) -> aborted x = false)
/\ (forall e, promise x = Some (Rejected e) -> statusCode e <> None -> aborted x = false).
Proof.
  intros x.
  assert (timer_invariant x) as (Hp & Ht & Hnull & Hlive)
    by apply run_invariant, (getAccessToken_invariant JSON_parse).
  assert (aborted x = true <-> timer x = false) as Hab.
  { split.
    - intros H. destruct (timer x) eqn:E; [|reflexivity].
      rewrite (Hlive eq_refl) in H. discriminate H.
    - intros H. now destruct (Hnull H) as (_ & ? & _). }
  assert (aborted x = true -> promise x = Some (Rejected Spec.timed_out)) as Hto.
  { intros H. apply Hab in H. now destruct (Hnull H) as (_ & _ & ?). }
  split; [exact Hp|]. split; [exact Hab|]. split; [exact Hto|]. split.
  - intros payload H. destruct (aborted x); [|reflexivity].
    rewrite (Hto eq_refl) in H. discriminate H.
  - intros e H Hs. destruct (aborted x); [|reflexivity].
    rewrite (Hto eq_refl) in H. injection H as <-. now destruct Hs.
Qed.

(** X17: the body is buffered chunk by chunk and settles nothing by
    itself.  After the head of a response and any chunks the promise is
    pending, the timer armed, the request not aborted and the buffer the
    concatenation of the chunks; and the outcome at the end of the
    response depends on that concatenation only, not on how the body was
    cut into chunks. *)
Theorem getAccessToken_buffers_body
  (this : instance) (shop code : jsstring) (status : Z)
  (chunks chunks' : list jsstring) (late : list event) :
let x0 := getAccessToken (json := json) JSON_stringify this shop code in
let x := run JSON_parse x0 (EvResponse status :: map EvData chunks) in
promise x = None /\ pending_timeout x = true /\ aborted x = false
/\ response x = Some (status, concat chunks)
/\ (concat chunks' = concat chunks ->
    promise (run JSON_parse x0 (EvResponse status :: map EvData chunks' ++ EvEnd :: late))
    = promise (run JSON_parse x0 (EvResponse status :: map EvData chunks ++ EvEnd :: late))).
Proof.
  intros x0 x.
  assert (forall (cs : list jsstring) (y : exchange json) (body : jsstring),
             response y = Some (status, body) ->
             response (run JSON_parse y (map EvData cs))
             = Some (status, body ++ concat cs)) as Hbuf.
  { induction cs as [|c cs IH]; intros y body Hy; simpl.
    - now rewrite app_nil_r.
    - rewrite (IH _ (body ++ c)); [now rewrite app_assoc|].
      unfold on_data. rewrite Hy. reflexivity. }
  assert (forallb Spec.in_flight (EvResponse status :: map EvData chunks) = true) as Hfl.
  { simpl. induction chunks as [|c cs IH]; [reflexivity|exact IH]. }
  assert (promise x = None) as Hnone.
  { subst x. rewrite run_first_outcome by reflexivity.
    destruct (first_outcome_in_flight JSON_parse (response x0) _ [] Hfl) as (resp' & E).
    rewrite app_nil_r in E. now rewrite E. }
  assert (timer_invariant x) as (Hp & Ht & _ & Hlive)
    by apply run_invariant, (getAccessToken_invariant JSON_parse).
  split; [exact Hnone|]. split; [now apply Hp|]. split; [now apply Hlive, Ht, Hp|].
  split.
  - subst x. cbn [run fold_left]. apply (Hbuf chunks _ []). reflexivity.
  - intros Hc. rewrite !run_first_outcome by reflexivity.
    cbn [Spec.first_outcome]. now rewrite !first_outcome_body, Hc.
Qed.

End ExchangeMore.

Lemma getAccessToken_transport_error_witness :
  promise (run parse_flat_object
               (getAccessToken stringify_flat test_instance test_shop test_code)
               ([EvResponse 200; EvData (str "{")]
                  ++ EvError (mkError (str "Something wrong happened"))
                  :: [EvTimeout; EvEnd]))
  = Some (Rejected (mkError (str "Something wrong happened"))).
Proof.
  apply (getAccessToken_transport_error parse_flat_object stringify_flat
           test_instance test_shop test_code
           [EvResponse 200; EvData (str "{")] [EvTimeout; EvEnd]
           (mkError (str "Something wrong happened"))).
  reflexivity.
Defined.

Lemma getAccessToken_timer_and_abort_witness :
  aborted (run parse_flat_object
               (getAccessToken stringify_flat test_instance test_shop test_code)
               [EvResponse 200; EvData token_body; EvEnd; EvTimeout])
  = false.
Proof.
  destruct (getAccessToken_timer_and_abort parse_flat_object stringify_flat
              test_instance test_shop test_code
              [EvResponse 200; EvData token_body; EvEnd; EvTimeout])
    as (_ & _ & _ & H & _).
  apply (H token_payload). reflexivity.
Defined.

Lemma getAccessToken_buffers_body_witness :
  promise (run parse_flat_object
               (getAccessToken stringify_flat test_instance test_shop test_code)
               (EvResponse 200 :: map EvData [str "{"; str "}"] ++ [EvEnd]))
  = promise (run parse_flat_object
               (getAccessToken stringify_flat test_instance test_shop test_code)
               (EvResponse 200 :: map EvData [str "{}"] ++ [EvEnd])).
Proof.
  destruct (getAccessToken_buffers_body parse_flat_object stringify_flat
              test_instance test_shop test_code 200 [str "{}"] [str "{"; str "}"] [])
    as (_ & _ & _ & _ & H).
  apply H. reflexivity.
Defined.

(* ------------------------------------------------------------------ *)
(** ** The revisions of [verifyHmac] and [generateAuthUrl] compared *)

Lemma lower_hex_digit (c : Z) :
  is_lower_hex c = true ->
  exists v, unhex c = Some v /\ 0 <= v < 16 /\ hex_digit false v = c.
Proof.
  unfold is_lower_hex, unhex, hex_digit. intros H.
  destruct ((48 <=? c) && (c <=? 57)) eqn:E1.
  - exists (c - 48). apply andb_true_iff in E1. destruct E1 as [E1 E1'].
    apply Z.leb_le in E1, E1'.
    assert ((c - 48 <? 10) = true) as -> by (apply Z.ltb_lt; lia).
    repeat split; lia.
  - simpl in H. rewrite H. exists (c - 87).
    apply andb_true_iff in H. destruct H as [H H'].
    apply Z.leb_le in H, H'.
    assert ((c - 87 <? 10) = false) as -> by (apply Z.ltb_ge; lia).
    repeat split; lia.
Qed.

Lemma lower_hex_is_hex (h : jsstring) :
  forallb is_lower_hex h = true -> forallb is_hex_digit h = true.
Proof.
  induction h as [|c t IH]; [reflexivity|]. cbn [forallb].
  intros H. apply andb_true_iff in H. destruct H as [Hc Ht].
  destruct (lower_hex_digit c Hc) as (v & Hv & _).
  unfold is_hex_digit at 1. rewrite Hv. simpl. now apply IH.
Qed.

Lemma nibbles_of_byte (x y : Z) :
  0 <= x < 16 -> 0 <= y < 16 ->
  Z.shiftr (16 * x + y) 4 = x /\ Z.land (16 * x + y) 15 = y.
Proof.
  intros Hx Hy.
  rewrite Z.shiftr_div_pow2 by lia.
  change 15 with (Z.ones 4). rewrite Z.land_ones by lia.
  change (2 ^ 4) with 16. split.
  - symmetry. apply (Z.div_unique (16 * x + y) 16 x y); lia.
  - symmetry. apply (Z.mod_unique (16 * x + y) 16 x y); lia.
Qed.

Lemma Buffer_toString_from_hex (n : nat) (h : jsstring) :
  length h = (2 * n)%nat -> forallb is_lower_hex h = true ->
  Buffer_toString_hex (Buffer_from_hex h) = h.
Proof.
  revert h; induction n as [|n IH]; intros h Hlen Hhex.
  - destruct h; [reflexivity|discriminate].
  - destruct h as [|a [|b t]]; simpl in Hlen; try lia.
    cbn [forallb] in Hhex.
    apply andb_true_iff in Hhex; destruct Hhex as [Ha Hhex].
    apply andb_true_iff in Hhex; destruct Hhex as [Hb Hhex].
    destruct (lower_hex_digit a Ha) as (x & Hx & Hxr & Hxd).
    destruct (lower_hex_digit b Hb) as (y & Hy & Hyr & Hyd).
    cbn [Buffer_from_hex]. rewrite Hx, Hy.
    cbn [Buffer_toString_hex flat_map app].
    destruct (nibbles_of_byte x y Hxr Hyr) as (-> & ->).
    rewrite Hxd, Hyd. fold (Buffer_toString_hex (Buffer_from_hex t)).
    rewrite IH; [reflexivity|lia|assumption].
Qed.

(** With an [hmac] of 64 hexadecimal digits, [verifyHmac] compares the
    digest with what the digits decode to. *)
Lemma verifyHmac_wellformed (this : instance) (query : object) (hmac : jsstring) :
  get query (str "hmac") = VStr hmac ->
  length hmac = 64%nat -> forallb is_hex_digit hmac = true ->
  verifyHmac this query
  = Return (timingSafeEqual (Buffer_from_hex (expected_hmac this query))
                            (Buffer_from_hex hmac)).
Proof.
  intros Hget Hlen Hhex.
  destruct (expected_hmac_wellformed this query) as (_ & _ & ->).
  unfold verifyHmac. rewrite pairs_canonical. cbn [bind]. rewrite Hget.
  unfold Buffer_byteLength. rewrite utf8_hex, Hlen by assumption. reflexivity.
Qed.

Lemma IndexJs_verifyHmac_compares (this : instance) (query : object) :
  IndexJs.verifyHmac this query
  = Return (match get query (str "hmac") with
            | VStr hmac => streq (expected_hmac this query) hmac
            | _ => false
            end).
Proof. unfold IndexJs.verifyHmac. now rewrite pairs_canonical. Qed.

(** X18: the revision that compares by [timingSafeEqual] accepts every
    query the one that compared the hexadecimal strings by [===]
    accepted; and on a query whose [hmac] is 64 lower-case hexadecimal
    digits the two return the same. *)
Theorem verifyHmac_revisions_agree (this : instance) (query : object) :
  (IndexJs.verifyHmac this query = Return true -> verifyHmac this query = Return true)
  /\ forall hmac,
       get query (str "hmac") = VStr hmac ->
       length hmac = 64%nat -> forallb is_lower_hex hmac = true ->
       verifyHmac this query = IndexJs.verifyHmac this query.
Proof.
  destruct (expected_hmac_wellformed this query) as (Hlen & Hhex & _).
  pose proof (Buffer_from_hex_length 32 _ Hlen Hhex) as Hd.
  assert (Buffer_toString_hex (Buffer_from_hex (expected_hmac this query))
          = expected_hmac this query) as Hround.
  { unfold expected_hmac at 1.
    rewrite Buffer_from_hex_toString by apply sha256_bytes. reflexivity. }
  split.
  - rewrite IndexJs_verifyHmac_compares.
    destruct (get query (str "hmac")) as [| | | |hmac|] eqn:Hget;
      try (intros H; discriminate H).
    destruct (streq (expected_hmac this query) hmac) eqn:E;
      [|intros H; discriminate H].
    intros _. apply streq_eq in E. subst hmac.
    rewrite (verifyHmac_wellformed this query _ Hget Hlen Hhex).
    f_equal. now apply timingSafeEqual_same_length.
  - intros hmac Hget Hl Hlow.
    pose proof (lower_hex_is_hex hmac Hlow) as Hh.
    rewrite (verifyHmac_wellformed this query hmac Hget Hl Hh).
    rewrite IndexJs_verifyHmac_compares, Hget. f_equal.
    pose proof (Buffer_from_hex_length 32 _ Hl Hh) as Hs.
    pose proof (Buffer_toString_from_hex 32 hmac Hl Hlow) as Hback.
    set (e := expected_hmac this query) in *. clearbody e.
    assert (timingSafeEqual (Buffer_from_hex e) (Buffer_from_hex hmac) = true
            <-> Buffer_from_hex e = Buffer_from_hex hmac) as Htse
      by (apply timingSafeEqual_same_length; congruence).
    destruct (streq e hmac) eqn:E.
    + apply streq_eq in E. subst. now apply Htse.
    + destruct (timingSafeEqual (Buffer_from_hex e) (Buffer_from_hex hmac));
        [|reflexivity].
      assert (Buffer_from_hex e = Buffer_from_hex hmac) as Heq by now apply Htse.
      assert (e = hmac) as -> by (rewrite <- Hround, Heq; exact Hback).
      now rewrite streq_refl in E.
Qed.

Lemma verifyHmac_revisions_agree_witness :
  verifyHmac test_instance authentic_query
  = IndexJs.verifyHmac test_instance authentic_query.
Proof.
  apply (proj2 (verifyHmac_revisions_agree test_instance authentic_query)
           authentic_hmac); reflexivity.
Defined.

Lemma get_string_values (query : object) (k : jsstring) :
  Forall (fun kv => exists s, snd kv = VStr s) query ->
  In k (Object_keys query) -> exists s, get query k = VStr s.
Proof.
  unfold Object_keys.
  induction 1 as [|[k' v] t (s & Hv) _ IH]; simpl; [contradiction|].
  intros Hin. destruct (streq k' k) eqn:E.
  - exists s. exact Hv.
  - destruct Hin as [Hin|Hin]; [|now apply IH].
    subst. now rewrite streq_refl in E.
Qed.

Lemma Callback_pairs_strings (query : object) :
  Forall (fun kv => exists s, snd kv = VStr s) query ->
  Callback.pairs query = pairs query.
Proof.
  intros Hs. unfold Callback.pairs, pairs. f_equal.
  set (keys := filter _ (Object_keys query)).
  assert (forall k, In k keys -> In k (Object_keys query)) as Hin
    by (intros k Hk; unfold keys in Hk; apply filter_In in Hk; tauto).
  clearbody keys. induction keys as [|k ks IH]; [reflexivity|].
  cbn [mapM]. rewrite IH by (intros k' Hk'; apply Hin; now right).
  destruct (get_string_values query k Hs (Hin k (or_introl eq_refl))) as (s & Hv).
  rewrite Hv. unfold pair_value. simpl. reflexivity.
Qed.

(** X19: the first revision of [verifyHmac] signs string values only: on
    a query whose values are all strings it returns what the next
    revision returns, and a value that is no string, an array for
    one, contributes the empty pair in place of [key=value]. *)
Theorem Callback_verifyHmac_strings_only
  (this : instance) (query : object) (key : jsstring) (l : list value) :
  (Forall (fun kv => exists s, snd kv = VStr s) query ->
   Callback.verifyHmac this query = IndexJs.verifyHmac this query)
  /\ Callback.pairs [(key, VArr l)]
     = (if streq key (str "signature") || streq key (str "hmac")
        then Return [] else Return [[]]).
Proof.
  split.
  - intros Hs. unfold Callback.verifyHmac, IndexJs.verifyHmac.
    now rewrite Callback_pairs_strings.
  - unfold Callback.pairs. cbn [Object_keys map fst filter].
    destruct (streq key (str "signature")), (streq key (str "hmac")); simpl;
      try reflexivity.
    now rewrite streq_refl.
Qed.

Lemma Callback_verifyHmac_strings_only_witness :
  Callback.verifyHmac test_instance authentic_query
  = IndexJs.verifyHmac test_instance authentic_query.
Proof.
  apply (proj1 (Callback_verifyHmac_strings_only test_instance authentic_query [] [])).
  repeat constructor; eexists; reflexivity.
Defined.

(** X20: before the [endsWith] test, [generateAuthUrl] appended
    [.myshopify.com] to every shop, also to one that ends with it; for
    an instance without access mode the two revisions build the same URL
    object exactly for the shops that do not end with the suffix. *)
Theorem IndexJs_generateAuthUrl_appends
  (this : instance) (randomBytes : buffer) (shop : jsstring) (scopes0 nonce : value) :
  hostname (IndexJs.authUrlObject this randomBytes shop scopes0 nonce)
  = shop ++ myshopify_com
  /\ hostname (IndexJs.authUrlObject this randomBytes (shop ++ myshopify_com) scopes0 nonce)
     = shop ++ myshopify_com ++ myshopify_com
  /\ (accessMode this = [] ->
      (IndexJs.authUrlObject this randomBytes shop scopes0 nonce
       = authUrlObject this randomBytes shop scopes0 nonce VUndefined
       <-> endsWith shop myshopify_com = false)).
Proof.
  split; [reflexivity|]. split; [cbn [IndexJs.authUrlObject hostname]; now rewrite app_assoc|].
  intros Hmode. unfold IndexJs.authUrlObject, authUrlObject. rewrite Hmode.
  cbn [truthy]. split.
  - intros H. apply (f_equal hostname) in H. cbn [hostname] in H.
    destruct (endsWith shop myshopify_com); [|reflexivity].
    apply (f_equal (@length Z)) in H. rewrite length_app in H.
    unfold myshopify_com in H. simpl in H. lia.
  - intros ->. reflexivity.
Qed.

Lemma IndexJs_generateAuthUrl_appends_witness :
  IndexJs.authUrlObject test_instance [] (str "qux") VUndefined VUndefined
  = authUrlObject test_instance [] (str "qux") VUndefined VUndefined VUndefined.
Proof.
  apply (proj2 (proj2 (IndexJs_generateAuthUrl_appends test_instance []
                         (str "qux") VUndefined VUndefined)));
    reflexivity.
Defined.

(* ------------------------------------------------------------------ *)
(** ** The exchange of the older revisions *)

Lemma status_is_200 (status : Z) : (status =? 200) = true \/ (status =? 200) = false.
Proof. destruct (status =? 200); auto. Qed.

Section OlderExchange.
Variable json tok : Type.
Variable JSON_parse : jsstring -> option json.
Variable JSON_stringify : object -> jsstring.

Lemma dispatch_in_step (f : json -> tok) (x : exchange tok) (y : exchange json)
  (ev : event) :
  in_step f x y ->
  in_step f (IndexJs.dispatch JSON_parse (fun v => Some (f v)) x ev)
            (dispatch JSON_parse y ev).
Proof.
  intros (Ht & Hp & Ha & Hr & Hpr).
  destruct x as [sx tx px ax rx prx], y as [sy ty py ay ry pry].
  cbn [timer pending_timeout aborted response promise] in *. subst.
  unfold in_step.
  destruct ev as [|status|chunk| |err]; cbn [IndexJs.dispatch dispatch].
  - cbn [pending_timeout]. destruct py; [|now repeat split].
    destruct pry; now repeat split.
  - now repeat split.
  - unfold on_data. cbn [response]. destruct ry as [[st body]|]; now repeat split.
  - cbn [response]. destruct ry as [[st body]|]; [|now repeat split].
    unfold IndexJs.on_end, on_end. cbn [timer].
    destruct ty; cbn [negb]; [|now repeat split].
    destruct (status_is_200 st) as [E|E]; rewrite E; cbn [negb].
    + destruct (JSON_parse body); destruct pry; now repeat split.
    + destruct pry; now repeat split.
  - unfold on_error. cbn [timer]. destruct ty; cbn [negb]; [|now repeat split].
    destruct pry; now repeat split.
Qed.

Lemma run_in_step (f : json -> tok) (evs : list event) :
  forall x y, in_step f x y ->
  in_step f (IndexJs.run JSON_parse (fun v => Some (f v)) x evs)
            (run JSON_parse y evs).
Proof.
  induction evs as [|ev evs IH]; intros x y H; [exact H|].
  apply IH. now apply dispatch_in_step.
Qed.

(** X21: the older promise revision behaves as the current one on every
    sequence of events, but resolves with what it reads from the parsed
    body, [body.access_token], where the current one resolves with the
    body; [f] is that read, on bodies where it does not throw. *)
Theorem IndexJs_getAccessToken_resolves_property
  (f : json -> tok) (this : instance) (shop code : jsstring) (evs : list event) :
  let old := IndexJs.run JSON_parse (fun v => Some (f v))
               (IndexJs.getAccessToken JSON_stringify this shop code) evs in
  let new := run JSON_parse (getAccessToken JSON_stringify this shop code) evs in
  promise old = option_map (settlement_map f) (promise new)
  /\ aborted old = aborted new
  /\ promise old = option_map (settlement_map f)
                              (Spec.first_outcome JSON_parse None evs).
Proof.
  intros old new.
  assert (in_step f old new) as (_ & _ & Ha & _ & Hp)
    by (apply run_in_step; now repeat split).
  repeat split; [exact Hp|exact Ha|].
  rewrite Hp. unfold new. now rewrite run_first_outcome.
Qed.

Lemma IndexJs_run_app (access_token : json -> option tok)
  (evs evs' : list event) (x : exchange tok) :
  IndexJs.run JSON_parse access_token x (evs ++ evs')
  = IndexJs.run JSON_parse access_token
      (IndexJs.run JSON_parse access_token x evs) evs'.
Proof. apply fold_left_app. Qed.

Lemma IndexJs_run_data (access_token : json -> option tok)
  (chunks : list jsstring) :
  forall (x : exchange tok) status body,
  response x = Some (status, body) ->
  IndexJs.run JSON_parse access_token x (map EvData chunks)
  = set_response tok (Some (status, body ++ concat chunks)) x.
Proof.
  induction chunks as [|c chunks IH]; intros x status body Hr.
  - cbn [map IndexJs.run fold_left concat]. rewrite app_nil_r.
    destruct x; cbn [response] in Hr; subst; reflexivity.
  - cbn [map IndexJs.run fold_left IndexJs.dispatch].
    fold (IndexJs.run JSON_parse access_token (on_data tok c x) (map EvData chunks)).
    unfold on_data at 1. rewrite Hr.
    rewrite (IH _ status (body ++ c)) by reflexivity.
    cbn [concat]. rewrite app_assoc. destruct x; reflexivity.
Qed.

(** X22: in the older promise revision a response with status 200 whose
    body parses to a value on which the read of [.access_token] throws,
    [null] that is, leaves the promise pending with the timeout cleared:
    the timeout cannot reject it any more. *)
Theorem IndexJs_getAccessToken_unreadable_body
  (access_token : json -> option tok) (this : instance) (shop code : jsstring)
  (chunks : list jsstring) (parsed : json) (n : nat) :
  JSON_parse (concat chunks) = Some parsed ->
  access_token parsed = None ->
  let x := IndexJs.run JSON_parse access_token
             (IndexJs.getAccessToken JSON_stringify this shop code)
             (EvResponse 200 :: map EvData chunks ++ EvEnd :: repeat EvTimeout n) in
  promise x = None /\ pending_timeout x = false /\ aborted x = false.
Proof.
  intros Hparse Hread x. subst x.
  cbn [IndexJs.run fold_left IndexJs.dispatch].
  fold (IndexJs.run JSON_parse access_token
          (on_response tok 200 (IndexJs.getAccessToken JSON_stringify this shop code))
          (map EvData chunks ++ EvEnd :: repeat EvTimeout n)).
  rewrite IndexJs_run_app.
  rewrite (IndexJs_run_data access_token chunks _ 200 []) by reflexivity.
  cbn [app IndexJs.run fold_left IndexJs.dispatch set_response response
       on_response IndexJs.getAccessToken].
  unfold IndexJs.on_end. cbn [timer negb Z.eqb Pos.eqb clearTimeout].
  rewrite Hparse, Hread.
  induction n as [|n IH]; [now repeat split|].
  cbn [repeat fold_left IndexJs.dispatch set_pending_timeout pending_timeout].
  exact IH.
Qed.

Lemma dispatch_follows (access_token : json -> option tok)
  (c : Callback.exchange tok) (x : exchange tok) (ev : event) :
  follows c x ->
  follows (Callback.dispatch JSON_parse access_token c ev)
          (IndexJs.dispatch JSON_parse access_token x ev).
Proof.
  intros (Hs & Ht & Hp & Ha & Hr & Hpr).
  destruct c as [sc tc pc ac rc cs], x as [sx tx px ax rx prx].
  cbn [Callback.sent Callback.timer Callback.pending_timeout Callback.aborted
       Callback.response Callback.calls
       sent timer pending_timeout aborted response promise] in *. subst.
  unfold follows.
  destruct ev as [|status|chunk| |err];
    cbn [Callback.dispatch IndexJs.dispatch].
  - cbn [pending_timeout Callback.pending_timeout].
    destruct px; [|now repeat split]. destruct cs; now repeat split.
  - now repeat split.
  - unfold on_data, Callback.on_data. cbn [response Callback.response].
    destruct rx as [[st body]|]; now repeat split.
  - cbn [response Callback.response].
    destruct rx as [[st body]|]; [|now repeat split].
    unfold IndexJs.on_end, Callback.on_end. cbn [timer Callback.timer].
    destruct tx; cbn [negb]; [|now repeat split].
    destruct (status_is_200 st) as [E|E]; rewrite E; cbn [negb].
    + destruct (JSON_parse body) as [parsed|].
      * destruct (access_token parsed); destruct cs; now repeat split.
      * destruct cs; now repeat split.
    + destruct cs; now repeat split.
  - unfold on_error, Callback.on_error. cbn [timer Callback.timer].
    destruct tx; cbn [negb]; [|now repeat split].
    destruct cs; now repeat split.
Qed.

Lemma run_follows (access_token : json -> option tok) (evs : list event) :
  forall c x, follows c x ->
  follows (Callback.run JSON_parse access_token c evs)
          (IndexJs.run JSON_parse access_token x evs).
Proof.
  induction evs as [|ev evs IH]; intros c x H; [exact H|].
  apply IH. now apply dispatch_follows.
Qed.

(** X23: the promise revision settles with the first call the callback
    revision makes of [fn], on every sequence of events, and stays
    pending exactly when [fn] is never called. *)
Theorem Callback_first_call_settles
  (access_token : json -> option tok) (this : instance) (shop code : jsstring)
  (evs : list event) :
  let c := Callback.run JSON_parse access_token
             (Callback.getAccessToken JSON_stringify this shop code) evs in
  let x := IndexJs.run JSON_parse access_token
             (IndexJs.getAccessToken JSON_stringify this shop code) evs in
  promise x = hd_error (Callback.calls c)
  /\ (promise x = None <-> Callback.calls c = [])
  /\ Callback.sent c = sent x /\ Callback.aborted c = aborted x.
Proof.
  intros c x.
  assert (follows c x) as (Hs & _ & _ & Ha & _ & Hp)
    by (apply run_follows; now repeat split).
  split; [now rewrite Hp|]. split; [|now split].
  rewrite <- Hp. destruct (Callback.calls c); now split.
Qed.

Lemma Callback_run_app (access_token : json -> option tok)
  (evs evs' : list event) (c : Callback.exchange tok) :
  Callback.run JSON_parse access_token c (evs ++ evs')
  = Callback.run JSON_parse access_token
      (Callback.run JSON_parse access_token c evs) evs'.
Proof. apply fold_left_app. Qed.

Lemma Callback_timer_kept (access_token : json -> option tok) (evs : list event) :
  forall c, ~ In EvTimeout evs -> Callback.timer c = true ->
  Callback.timer (Callback.run JSON_parse access_token c evs) = true.
Proof.
  induction evs as [|ev evs IH]; intros c Hno Ht; [exact Ht|].
  apply IH; [intros H; apply Hno; now right|].
  destruct ev as [|status|chunk| |err]; cbn [Callback.dispatch].
  - exfalso. apply Hno. now left.
  - exact Ht.
  - unfold Callback.on_data. now destruct (Callback.response c) as [[st body]|].
  - destruct (Callback.response c) as [[st body]|]; [|exact Ht].
    unfold Callback.on_end. rewrite Ht. cbn [negb].
    destruct (negb (st =? 200)); [exact Ht|].
    destruct (JSON_parse body) as [parsed|]; [|exact Ht].
    now destruct (access_token parsed).
  - unfold Callback.on_error. rewrite Ht. exact Ht.
Qed.

Lemma Callback_dispatch_fired (access_token : json -> option tok)
  (c : Callback.exchange tok) (ev : event) :
  (Callback.timer c = false ->
   Callback.pending_timeout c = false
   /\ exists cs, Callback.calls c = cs ++ [Rejected (mkError (str "Request timed out"))]) ->
  let c' := Callback.dispatch JSON_parse access_token c ev in
  (Callback.timer c' = false ->
   Callback.pending_timeout c' = false
   /\ exists cs, Callback.calls c' = cs ++ [Rejected (mkError (str "Request timed out"))])
  /\ (Callback.timer c = false -> Callback.calls c' = Callback.calls c).
Proof.
  intros Hinv c'. subst c'.
  destruct c as [sc tc pc ac rc cs].
  cbn [Callback.timer Callback.pending_timeout Callback.calls] in Hinv.
  destruct ev as [|status|chunk| |err]; cbn [Callback.dispatch].
  - cbn [Callback.pending_timeout]. destruct pc.
    + split.
      * intros _. split; [reflexivity|]. now exists cs.
      * cbn [Callback.timer]. intros Ht. now destruct (Hinv Ht).
    + split; [exact Hinv|reflexivity].
  - split; [exact Hinv|reflexivity].
  - unfold Callback.on_data. cbn [Callback.response].
    destruct rc as [[st body]|]; (split; [exact Hinv|reflexivity]).
  - cbn [Callback.response]. destruct rc as [[st body]|];
      [|split; [exact Hinv|reflexivity]].
    unfold Callback.on_end. cbn [Callback.timer].
    destruct tc; cbn [negb]; [|split; [exact Hinv|reflexivity]].
    split; [|discriminate].
    destruct (negb (st =? 200)); [discriminate|].
    destruct (JSON_parse body) as [parsed|]; [|discriminate].
    destruct (access_token parsed); discriminate.
  - unfold Callback.on_error. cbn [Callback.timer].
    destruct tc; cbn [negb]; [|split; [exact Hinv|reflexivity]].
    split; discriminate.
Qed.

Lemma Callback_run_fired (access_token : json -> option tok) (evs : list event) :
  forall c,
  (Callback.timer c = false ->
   Callback.pending_timeout c = false
   /\ exists cs, Callback.calls c = cs ++ [Rejected (mkError (str "Request timed out"))]) ->
  let c' := Callback.run JSON_parse access_token c evs in
  (Callback.timer c' = false ->
   Callback.pending_timeout c' = false
   /\ exists cs, Callback.calls c' = cs ++ [Rejected (mkError (str "Request timed out"))])
  /\ (Callback.timer c = false -> Callback.calls c' = Callback.calls c).
Proof.
  induction evs as [|ev evs IH]; intros c Hinv; [now split|].
  destruct (Callback_dispatch_fired access_token c ev Hinv) as (Hinv' & Hsame).
  destruct (IH _ Hinv') as (Hinv'' & Hsame').
  cbn [Callback.run fold_left]. split; [exact Hinv''|].
  intros Ht. rewrite <- (Hsame Ht). apply Hsame'.
  destruct c as [sc tc pc ac rc cs]. cbn [Callback.timer] in Ht. subst tc.
  destruct (Hinv eq_refl) as (Hp & _). cbn [Callback.pending_timeout] in Hp. subst pc.
  destruct ev as [|status|chunk| |err]; cbn; try reflexivity.
  - unfold Callback.on_data. cbn. now destruct rc as [[st body]|].
  - now destruct rc as [[st body]|].
Qed.

(** X24: the callback revision can call [fn] more than once: as long as
    the timeout callback has not run, every ['error'] event delivered
    calls [fn] with its error, whatever was called before.  Once the
    timeout callback has run, its call is the last: no later event calls
    [fn]. *)
Theorem Callback_fn_called_again
  (access_token : json -> option tok) (this : instance) (shop code : jsstring)
  (evs later : list event) (err : jserror) :
  let x0 := Callback.getAccessToken JSON_stringify this shop code in
  let c := Callback.run JSON_parse access_token x0 evs in
  (~ In EvTimeout evs ->
   Callback.calls (Callback.run JSON_parse access_token x0 (evs ++ [EvError err]))
   = Callback.calls c ++ [Rejected err])
  /\ (Callback.timer c = false ->
      Callback.calls (Callback.run JSON_parse access_token x0 (evs ++ later))
      = Callback.calls c
      /\ exists cs, Callback.calls c
                    = cs ++ [Rejected (mkError (str "Request timed out"))]).
Proof.
  intros x0 c. split.
  - intros Hno. rewrite Callback_run_app. fold c.
    assert (Callback.timer c = true) as Ht
      by (now apply Callback_timer_kept).
    cbn [Callback.run fold_left Callback.dispatch].
    unfold Callback.on_error. rewrite Ht. reflexivity.
  - intros Ht. rewrite Callback_run_app. fold c.
    assert (Callback.timer c = false ->
            Callback.pending_timeout c = false
            /\ exists cs, Callback.calls c
                          = cs ++ [Rejected (mkError (str "Request timed out"))])
      as Hinv by (apply (Callback_run_fired access_token evs x0); discriminate).
    split; [|now apply Hinv].
    now apply (Callback_run_fired access_token later c Hinv).
Qed.

End OlderExchange.

Lemma IndexJs_getAccessToken_unreadable_body_witness :
  let x := IndexJs.run parse_nullable read_access_token
             (IndexJs.getAccessToken stringify_flat test_instance test_shop test_code)
             (EvResponse 200 :: map EvData [str "nu"; str "ll"]
                ++ EvEnd :: repeat EvTimeout 2) in
  promise x = None /\ pending_timeout x = false /\ aborted x = false.
Proof.
  apply (IndexJs_getAccessToken_unreadable_body _ _ parse_nullable stringify_flat
           read_access_token test_instance test_shop test_code
           [str "nu"; str "ll"] None 2); reflexivity.
Defined.

Lemma Callback_fn_called_again_witness :
  let x0 := Callback.getAccessToken (tok := value) stringify_flat
              test_instance test_shop test_code in
  Callback.calls (Callback.run parse_nullable read_access_token x0
                    ([EvResponse 500; EvEnd] ++ [EvError (mkError (str "socket hang up"))]))
  = Callback.calls (Callback.run parse_nullable read_access_token x0
                      [EvResponse 500; EvEnd])
    ++ [Rejected (mkError (str "socket hang up"))]
  /\ Callback.calls (Callback.run parse_nullable read_access_token x0
                       ([EvTimeout] ++ [EvResponse 200; EvEnd]))
     = Callback.calls (Callback.run parse_nullable read_access_token x0 [EvTimeout]).
Proof.
  split.
  - apply (proj1 (Callback_fn_called_again _ _ parse_nullable stringify_flat
                    read_access_token test_instance test_shop test_code
                    [EvResponse 500; EvEnd] [] (mkError (str "socket hang up")))).
    simpl. intros [H|[H|H]]; [discriminate H|discriminate H|exact H].
  - apply (proj2 (Callback_fn_called_again _ _ parse_nullable stringify_flat
                    read_access_token test_instance test_shop test_code
                    [EvTimeout] [EvResponse 200; EvEnd] (mkError []))).
    reflexivity.
Defined.

(* ------------------------------------------------------------------ *)
(** ** The example application *)

(** X25: the callback route of the example starts the exchange exactly
    when the [state] of the query is a string, is the one stored in the
    session, and [verifyHmac] accepts the query; it then asks the token
    for the [shop] and [code] of the query.  Every other request it
    answers, it answers with status 400. *)
Theorem ExampleApp_callback_gate (json : Type) (this : instance)
  (s : ExampleApp.session json) (query : object) :
  (forall shop code,
     ExampleApp.callback this s query = Return (ExampleApp.Exchanging shop code)
     <-> (exists state, get query (str "state") = VStr state
                        /\ ExampleApp.session_state s = VStr state)
         /\ verifyHmac this query = Return true
         /\ shop = get query (str "shop") /\ code = get query (str "code"))
  /\ forall a, ExampleApp.callback this s query = Return a ->
       a = ExampleApp.Exchanging (get query (str "shop")) (get query (str "code"))
       \/ a = ExampleApp.Send 400 (str "Security checks failed").
Proof.
  unfold ExampleApp.callback.
  destruct (get query (str "state")) as [| | | |state|] eqn:Hstate;
    try (split; [intros shop code; split;
                   [discriminate|intros ((st & Hst & _) & _); discriminate Hst]
                |intros a H; right; congruence]).
  unfold ExampleApp.differs.
  destruct (ExampleApp.session_state s) as [| | | |stored|] eqn:Hstored;
    try (split; [intros shop code; split;
                   [discriminate|intros ((st & _ & Hst) & _); discriminate Hst]
                |intros a H; right; congruence]).
  destruct (streq state stored) eqn:E; cbn [negb].
  - apply streq_eq in E. subst stored.
    destruct (verifyHmac this query) as [[|]|e]; cbn [bind negb].
    + split.
      * intros shop code. split.
        -- intros H. injection H as -> ->. split; [now exists state|now repeat split].
        -- intros (_ & _ & -> & ->). reflexivity.
      * intros a H. left. congruence.
    + split.
      * intros shop code. split; [discriminate|intros (_ & H & _); discriminate H].
      * intros a H. right. congruence.
    + split.
      * intros shop code. split; [discriminate|intros (_ & H & _); discriminate H].
      * intros a H. discriminate H.
  - split.
    + intros shop code. split; [discriminate|].
      intros ((st & Hst & Hst') & _).
      assert (state = stored) by congruence. subst.
      now rewrite streq_refl in E.
    + intros a H. right. congruence.
Qed.

Lemma ExampleApp_callback_gate_witness :
  ExampleApp.callback test_instance
    (ExampleApp.Session (json := jsstring) None
                        (VStr (str "b77827e928ee8eee614b5808d3276c8a")))
    authentic_query
  = Return (ExampleApp.Exchanging (VStr test_shop) (VStr test_code)).
Proof.
  apply (proj1 (ExampleApp_callback_gate jsstring test_instance
                  (ExampleApp.Session None
                     (VStr (str "b77827e928ee8eee614b5808d3276c8a")))
                  authentic_query)).
  split; [eexists; split; reflexivity|].
  split; [vm_compute; reflexivity|split; reflexivity].
Defined.

(** X26: the nonce of the example makes one round.  Without a token the
    home route draws a nonce, stores it in the session and redirects to
    the authorization URL built with that nonce as [state].  When the
    exchange has succeeded the token is in the session and the stored
    nonce is gone: the callback route answers every further request with
    400, as it does in a session that holds no nonce. *)
Theorem ExampleApp_nonce_round (json : Type) (json_truthy : json -> bool)
  (url_format : urlObject -> jsstring) (config_shop : jsstring)
  (this : instance) (randomBytes randomBytes' : buffer)
  (s : ExampleApp.session json) (token : json) (query : object) :
  (ExampleApp.session_token s = None -> randomBytes <> [] ->
   let nonce := generateNonce randomBytes in
   let u := authUrlObject this randomBytes' config_shop VUndefined (VStr nonce)
                          VUndefined in
   ExampleApp.home json_truthy url_format config_shop this randomBytes randomBytes' s
   = (ExampleApp.Session None (VStr nonce), ExampleApp.Redirect (url_format u))
   /\ get (ShopifyToken.query u) (str "state") = VStr nonce)
  /\ (ExampleApp.session_state s = VUndefined ->
      ExampleApp.callback this s query
      = Return (ExampleApp.Send 400 (str "Security checks failed")))
  /\ (let s' := fst (ExampleApp.settled s (Fulfilled token)) in
      ExampleApp.session_token s' = Some token
      /\ ExampleApp.callback this s' query
         = Return (ExampleApp.Send 400 (str "Security checks failed"))).
Proof.
  assert (forall s0 : ExampleApp.session json,
            ExampleApp.session_state s0 = VUndefined ->
            ExampleApp.callback this s0 query
            = Return (ExampleApp.Send 400 (str "Security checks failed"))) as Hno.
  { intros s0 Hs0. unfold ExampleApp.callback. rewrite Hs0.
    now destruct (get query (str "state")). }
  split; [|split; [apply Hno|split; [reflexivity|now apply Hno]]].
  intros Htok Hbytes nonce u.
  assert (truthy (VStr nonce) = true) as Htruthy.
  { unfold nonce, generateNonce. destruct randomBytes; [contradiction|reflexivity]. }
  split.
  - unfold ExampleApp.home. rewrite Htok. reflexivity.
  - unfold u, authUrlObject. rewrite Htruthy.
    destruct (truthy (if truthy VUndefined then VUndefined else VStr (accessMode this)));
      reflexivity.
Qed.

Lemma ExampleApp_nonce_round_witness :
  let nonce := generateNonce [171; 205] in
  let u := authUrlObject test_instance [] test_shop VUndefined (VStr nonce) VUndefined in
  ExampleApp.home (fun _ : jsstring => true) url_format_plain test_shop
                  test_instance [171; 205] []
                  (ExampleApp.Session None VUndefined)
  = (ExampleApp.Session None (VStr nonce), ExampleApp.Redirect (url_format_plain u))
  /\ get (ShopifyToken.query u) (str "state") = VStr nonce.
Proof.
  apply (proj1 (ExampleApp_nonce_round jsstring (fun _ => true) url_format_plain
                  test_shop test_instance [171; 205] []
                  (ExampleApp.Session None VUndefined) [] []));
    [reflexivity|discriminate].
Defined.
